(** * CityGrid: greedy tower placement and tower-to-tower shortest paths

    A shallow embedding of [src/main.py] (class [CityGrid]) and the proofs of
    its specified properties.

    Modelling conventions.
    - Python integers are [Z]; coordinates are pairs [(Z * Z)].
    - [self.grid] is an [n] x [m] numpy array; it is a list of rows of [Z]
      cells holding [-1] (obstruction), [0] (free) or [1] (covered).
    - Python sets of coordinates are [gset (Z * Z)], the adjacency dict of
      [find_shortest_path] is a [gmap].  [self.tower_types] is a dict that is
      iterated in insertion order: an association list with distinct keys.
    - [coverage / cost] is a float division in the source.  The model keeps
      the exact quotient in [Q].  Python rounds the quotient of two integers
      correctly and rounding is monotone; with the catalog of the source
      (costs 15, 30 and 60, ranges at most 3) every quotient is a multiple
      of 1/60 between 0 and 50/60 (see [value_default_catalog]), different
      quotients round to different floats, and the comparisons of values
      are the comparisons of the exact quotients.  For other catalogs the
      two can differ (costs from 2^54 on give ties, huge costs give 0.0):
      the theorems that rest on the outcome of the comparison take the
      catalog of the source as a hypothesis.
    - Methods that can raise return a [result]; the [while] loops take fuel
      and are proved to finish with the fuel the model gives them. *)

From stdpp Require Import gmap strings list fin_maps.
From Stdlib Require Import QArith.

Local Open Scope Z_scope.

(** ** Exceptions and results *)

Inductive exn : Type :=
  | ValueError (msg : string)
  | IndexError
  | KeyError.

Inductive result (A : Type) : Type :=
  | Ok (a : A)
  | Raise (e : exn).
Arguments Ok {A} a.
Arguments Raise {A} e.

#[global] Instance result_ret : MRet result := λ A a, Ok a.
#[global] Instance result_bind : MBind result := λ A B k c,
  match c with
  | Ok a => k a
  | Raise e => Raise e
  end.

(** ** Data model *)

Abbreviation coord := (Z * Z)%type.

(** One entry of [self.tower_types]: [{'range': r, 'cost': c}].  Costs are
    positive integers (15, 30 and 60 in the source). *)
Record tower_properties : Type := {
  range : Z;
  cost : positive
}.

Record CityGrid : Type := {
  n : Z;
  m : Z;
  grid : list (list Z);
  towers : list coord;
  budget : Z;
  tower_types : list (string * tower_properties)
}.

(** The catalog installed by [__init__]. *)
Definition default_tower_types : list (string * tower_properties) :=
  [ ("small", {| range := 1; cost := 15 |});
    ("medium", {| range := 2; cost := 30 |});
    ("large", {| range := 3; cost := 60 |}) ].

(** [range(a, b)] *)
Definition py_range (a b : Z) : list Z := seqZ a (b - a).

(** numpy's index normalisation along an axis of length [len]: indices in
    [0, len) are used as they are, indices in [-len, 0) count from the end,
    anything else raises [IndexError]. *)
Definition np_index (len i : Z) : option Z :=
  if decide (0 ≤ i < len) then Some i
  else if decide (- len ≤ i < 0) then Some (i + len)
  else None.

(** [grid[x, y]] with an arbitrary index pair, as in the guard of
    [place_tower]. *)
Definition getitem (g : list (list Z)) (x y : Z) : result Z :=
  match np_index (Z.of_nat (length g)) x with
  | None => Raise IndexError
  | Some i =>
      match g !! Z.to_nat i with
      | None => Raise IndexError
      | Some row =>
          match np_index (Z.of_nat (length row)) y with
          | None => Raise IndexError
          | Some j =>
              match row !! Z.to_nat j with
              | None => Raise IndexError
              | Some v => Ok v
              end
          end
      end
  end.

(** [grid[i, j]] inside the loops, where [i] and [j] are drawn from ranges
    clamped to the shape of the array.  On an array of the shape [(n, m)]
    (see [wf_grid]) these reads cannot fail; outside the stored array,
    where numpy raises, this function returns 0, so that statements about
    the loops take [wf_grid] as a hypothesis. *)
Definition cell (g : list (list Z)) (i j : Z) : Z :=
  default 0 (g !! Z.to_nat i ≫= λ row, row !! Z.to_nat j).

(** [grid[i, j] = v] inside the loops. *)
Definition setitem (g : list (list Z)) (i j v : Z) : list (list Z) :=
  alter (λ row, <[Z.to_nat j := v]> row) (Z.to_nat i) g.

(** The array has the shape [(n, m)] it was created with. *)
Definition wf_grid (self : CityGrid) : Prop :=
  0 ≤ n self ∧ 0 ≤ m self ∧
  length (grid self) = Z.to_nat (n self) ∧
  Forall (λ row, length row = Z.to_nat (m self)) (grid self).

(** Dict keys are distinct. *)
Definition wf_catalog (self : CityGrid) : Prop :=
  NoDup (tower_types self).*1.

Definition in_bounds (self : CityGrid) (c : coord) : Prop :=
  0 ≤ c.1 < n self ∧ 0 ≤ c.2 < m self.

(** Chebyshev distance, max(|dx|, |dy|). *)
Definition chebyshev (a b : coord) : Z :=
  Z.max (Z.abs (a.1 - b.1)) (Z.abs (a.2 - b.2)).

(** ** [place_tower] *)

(** The InvalidPlacement error, line 33. *)
Definition invalid_placement : exn :=
  ValueError "Cannot place tower on obstructed block.".

(** Lines 42-43, at the cell [c]. *)
Definition mark (g : list (list Z)) (c : coord) : list (list Z) :=
  if decide (cell g c.1 c.2 ≠ -1) then setitem g c.1 c.2 1 else g.

(** Lines 40-43. *)
Definition mark_window (g : list (list Z))
    (x_start x_end y_start y_end : Z) : list (list Z) :=
  foldl (λ g i,
    foldl (λ g j, mark g (i, j)) g (py_range y_start y_end))
    g (py_range x_start x_end).

Definition place_tower (self : CityGrid) (x y r : Z) : result CityGrid :=
  v ← getitem (grid self) x y;
  if decide (v = -1)
  then Raise invalid_placement
  else
    let x_start := Z.max 0 (x - r) in
    let x_end := Z.min (n self) (x + r + 1) in
    let y_start := Z.max 0 (y - r) in
    let y_end := Z.min (m self) (y + r + 1) in
    Ok {| n := n self; m := m self;
          grid := mark_window (grid self) x_start x_end y_start y_end;
          towers := towers self ++ [(x, y)];
          budget := budget self;
          tower_types := tower_types self |}.

(** ** [calculate_coverage] *)

Definition calculate_coverage (self : CityGrid) (x y r : Z)
    (uncovered_blocks : gset coord) : gset coord :=
  foldl (λ covered_blocks i,
    foldl (λ covered_blocks j,
      if decide ((i, j) ∈ uncovered_blocks)
      then covered_blocks ∪ {[ (i, j) ]}
      else covered_blocks)
      covered_blocks
      (py_range (Z.max 0 (y - r)) (Z.min (m self) (y + r + 1))))
    ∅ (py_range (Z.max 0 (x - r)) (Z.min (n self) (x + r + 1))).

(** ** [place_towers] *)

(** [best_choice] and [best_value] of one iteration of the [while] loop. *)
Abbreviation choice := (Z * Z * string)%type.
Abbreviation best := (option choice * Q)%type.

(** Lines 61-67: the body of the two inner [for] loops, at the cell
    [(i, j)] for the tower type [tower_type] of range [r] and cost [c].
    [value] is the exact quotient; it compares as the float of line 63 does
    for the costs of the source (see the conventions above). *)
Definition evaluate (self : CityGrid) (uncovered_blocks : gset coord)
    (tower_type : string) (r : Z) (c : positive) (acc : best) (i j : Z) : best :=
  if decide (cell (grid self) i j = 0) then
    let coverage :=
      Z.of_nat (size (calculate_coverage self i j r uncovered_blocks)) in
    let value := (coverage # c)%Q in
    if Qlt_le_dec acc.2 value
    then (Some (i, j, tower_type), value)
    else acc
  else acc.

(** Lines 55-67: the body of the outer [for] loop over
    [self.tower_types.items()]. *)
Definition scan_type (self : CityGrid) (uncovered_blocks : gset coord)
    (acc : best) (item : string * tower_properties) : best :=
  if decide (budget self < Z.pos (cost item.2)) then acc
  else
    foldl (λ acc i,
      foldl (λ acc j,
        evaluate self uncovered_blocks item.1 (range item.2) (cost item.2) acc i j)
        acc (py_range 0 (m self)))
      acc (py_range 0 (n self)).

(** Lines 51-67. *)
Definition scan (self : CityGrid) (uncovered_blocks : gset coord) : best :=
  foldl (scan_type self uncovered_blocks) (None, 0%Q) (tower_types self).

(** [self.tower_types[tower_type]] *)
Definition tower_type_lookup (self : CityGrid) (tower_type : string)
    : result tower_properties :=
  match (list_to_map (tower_types self) : gmap string tower_properties) !! tower_type with
  | Some properties => Ok properties
  | None => Raise KeyError
  end.

Definition set_budget (self : CityGrid) (b : Z) : CityGrid :=
  {| n := n self; m := m self; grid := grid self; towers := towers self;
     budget := b; tower_types := tower_types self |}.

(** What one pass through the [while] statement does: leave the loop (the
    condition is false, or [break]), or commit [best_choice] and go on. *)
Inductive iteration : Type :=
  | Exit
  | Next (self : CityGrid) (uncovered_blocks : gset coord) (best_choice : choice).

(** Lines 50-76: the loop condition and one execution of the loop body. *)
Definition place_towers_body (self : CityGrid) (uncovered_blocks : gset coord)
    : result iteration :=
  if decide (uncovered_blocks ≠ ∅ ∧ budget self > 0) then
    match (scan self uncovered_blocks).1 with
    | None => Ok Exit
    | Some (x, y, tower_type) =>
        properties ← tower_type_lookup self tower_type;
        self' ← place_tower self x y (range properties);
        let self'' := set_budget self' (budget self' - Z.pos (cost properties)) in
        Ok (Next self''
              (uncovered_blocks ∖
                 calculate_coverage self'' x y (range properties) uncovered_blocks)
              (x, y, tower_type))
    end
  else Ok Exit.

(** The [while] loop.  [log] is a ghost: the committed [best_choice]s in
    order, which the source does not keep ([self.towers] records the
    coordinates only).  [None] stands for fuel running out. *)
Fixpoint place_towers_loop (fuel : nat) (self : CityGrid)
    (uncovered_blocks : gset coord) (log : list choice)
    : option (result (CityGrid * list choice)) :=
  match fuel with
  | O => None
  | S fuel =>
      match place_towers_body self uncovered_blocks with
      | Raise e => Some (Raise e)
      | Ok Exit => Some (Ok (self, log))
      | Ok (Next self' uncovered_blocks' best_choice) =>
          place_towers_loop fuel self' uncovered_blocks' (log ++ [best_choice])
      end
  end.

(** [(i, j) for i in range(n) for j in range(m) if grid[i, j] == 0] *)
Definition free_cells (self : CityGrid) : list coord :=
  i ← py_range 0 (n self);
  j ← py_range 0 (m self);
  if decide (cell (grid self) i j = 0) then [(i, j)] else [].

(** Lines 47-48. *)
Definition initial_uncovered (self : CityGrid) : gset coord :=
  list_to_set (free_cells self).

(** Every committed iteration takes at least one cell out of the
    uncovered set, so one more iteration than it has cells is enough (see
    [place_towers_loop_runs]). *)
Definition place_towers (self : CityGrid)
    : option (result (CityGrid * list choice)) :=
  place_towers_loop (S (size (initial_uncovered self))) self
    (initial_uncovered self) [].

(** Loop states, and the step from one iteration to the next. *)
Definition loop_state : Type := CityGrid * gset coord.

Definition loop_start (self : CityGrid) : loop_state :=
  (self, initial_uncovered self).

(** [runs s log s']: the loop goes from the state [s] to the state [s'] in
    zero or more iterations, committing the choices [log] in that order. *)
Inductive runs : loop_state → list choice → loop_state → Prop :=
  | runs_nil s : runs s [] s
  | runs_cons s self' uncovered_blocks' best_choice log s'' :
      place_towers_body s.1 s.2 = Ok (Next self' uncovered_blocks' best_choice) →
      runs (self', uncovered_blocks') log s'' →
      runs s (best_choice :: log) s''.

(** ** [find_shortest_path] and [breadth_first] *)

Definition is_within_range (tower1 tower2 : coord) (r : Z) : bool :=
  bool_decide (Z.abs (tower1.1 - tower2.1) ≤ r) &&
  bool_decide (Z.abs (tower1.2 - tower2.2) ≤ r).

(** [graph[k].append(v)] for a key [k] of the dict. *)
Definition graph_append (graph : gmap coord (list coord)) (k v : coord)
    : gmap coord (list coord) :=
  alter (λ l, l ++ [v]) k graph.

(** Lines 114-116. *)
Definition connect (r : Z) (tower1 : coord)
    (graph : gmap coord (list coord)) (tower2 : coord) : gmap coord (list coord) :=
  if is_within_range tower1 tower2 r
  then graph_append (graph_append graph tower1 tower2) tower2 tower1
  else graph.

(** Lines 111-116. *)
Definition build_graph (towers : list coord) (r : Z) : gmap coord (list coord) :=
  let graph := foldl (λ graph tower, <[tower := []]> graph) ∅ towers in
  foldl (λ graph '(i, tower1),
           foldl (connect r tower1) graph (drop (S i) towers))
    graph (imap pair towers).

Inductive bfs_iteration : Type :=
  | Return (path : option (list coord))
  | Continue (visited : gset coord) (queue : list (coord * list coord)).

(** Lines 141-143. *)
Definition visit (path : list coord)
    (st : gset coord * list (coord * list coord)) (neighbor : coord)
    : gset coord * list (coord * list coord) :=
  if decide (neighbor ∈ st.1) then st
  else ({[ neighbor ]} ∪ st.1, st.2 ++ [(neighbor, path ++ [neighbor])]).

(** Lines 135-145: the loop condition and one execution of the loop body. *)
Definition bfs_step (graph : gmap coord (list coord)) (end_ : coord)
    (visited : gset coord) (queue : list (coord * list coord))
    : result bfs_iteration :=
  match queue with
  | [] => Ok (Return None)
  | (current, path) :: queue =>
      if decide (current = end_) then Ok (Return (Some path))
      else
        match graph !! current with
        | None => Raise KeyError
        | Some neighbors =>
            let st := foldl (visit path) (visited, queue) neighbors in
            Ok (Continue st.1 st.2)
        end
  end.

Fixpoint breadth_first_loop (fuel : nat) (graph : gmap coord (list coord))
    (end_ : coord) (visited : gset coord) (queue : list (coord * list coord))
    : option (result (option (list coord))) :=
  match fuel with
  | O => None
  | S fuel =>
      match bfs_step graph end_ visited queue with
      | Raise e => Some (Raise e)
      | Ok (Return path) => Some (Ok path)
      | Ok (Continue visited' queue') =>
          breadth_first_loop fuel graph end_ visited' queue'
      end
  end.

Definition breadth_first (fuel : nat) (graph : gmap coord (list coord))
    (start end_ : coord) : option (result (option (list coord))) :=
  breadth_first_loop fuel graph end_ ∅ [(start, [start])].

(** The queue never holds more than one entry per tower and one for
    [start]; [length towers + 2] iterations are enough (see
    [find_shortest_path_terminates]). *)
Definition find_shortest_path (self : CityGrid) (start end_ : coord) (r : Z)
    : option (result (option (list coord))) :=
  breadth_first (length (towers self) + 2)
    (build_graph (towers self) r) start end_.

(** ** Vocabulary of the statements *)

(** The index pairs visited by two nested [for] loops, in iteration order. *)
Definition cells (xs ys : list Z) : list coord :=
  i ← xs; j ← ys; [(i, j)].

(** The cells visited by the loops of [place_tower] and
    [calculate_coverage] for a tower of range [r] at [(x, y)]. *)
Definition window (self : CityGrid) (x y r : Z) : list coord :=
  cells (py_range (Z.max 0 (x - r)) (Z.min (n self) (x + r + 1)))
        (py_range (Z.max 0 (y - r)) (Z.min (m self) (y + r + 1))).

Definition grid_shape (g : list (list Z)) (rows cols : Z) : Prop :=
  length g = Z.to_nat rows ∧ Forall (λ row, length row = Z.to_nat cols) g.

(** [S] is the set of Free cells of the grid: the uncovered set of the
    optimizer loop. *)
Definition is_free_set (self : CityGrid) (S : gset coord) : Prop :=
  ∀ c, c ∈ S ↔ in_bounds self c ∧ cell (grid self) c.1 c.2 = 0.

(** The state [place_tower] leaves behind when it does not raise. *)
Definition placed (self : CityGrid) (x y r : Z) : CityGrid :=
  {| n := n self; m := m self;
     grid := foldl mark (grid self) (window self x y r);
     towers := towers self ++ [(x, y)];
     budget := budget self;
     tower_types := tower_types self |}.

(** A (cell, tower type) pair of the scan. *)
Abbreviation candidate := (coord * (string * tower_properties))%type.

(** The pairs the scan evaluates, in the order it evaluates them: tower
    types in catalog order, skipping those that cost more than the budget,
    and for each type the Free cells in row-major order. *)
Definition candidates (self : CityGrid) : list candidate :=
  item ← tower_types self;
  if decide (budget self < Z.pos (cost item.2)) then []
  else (λ c, (c, item)) <$> free_cells self.

(** [len(calculate_coverage(i, j, range, uncovered_blocks)) / cost] *)
Definition value (self : CityGrid) (uncovered_blocks : gset coord)
    (cand : candidate) : Q :=
  Z.of_nat (size (calculate_coverage self cand.1.1 cand.1.2
                    (range cand.2.2) uncovered_blocks)) # cost cand.2.2.

Definition choice_of (cand : candidate) : choice :=
  (cand.1.1, cand.1.2, cand.2.1).

(** Lines 65-67 for one candidate. *)
Definition consider (self : CityGrid) (uncovered_blocks : gset coord)
    (acc : best) (cand : candidate) : best :=
  if Qlt_le_dec acc.2 (value self uncovered_blocks cand)
  then (Some (choice_of cand), value self uncovered_blocks cand)
  else acc.

(** The cost of a committed choice, and the total cost of a log. *)
Definition choice_cost (self : CityGrid) (ch : choice) : Z :=
  match tower_type_lookup self ch.2 with
  | Ok properties => Z.pos (cost properties)
  | Raise _ => 0
  end.

Definition spent (self : CityGrid) (log : list choice) : Z :=
  foldr (λ ch total, choice_cost self ch + total) 0 log.

Definition choice_coord (ch : choice) : coord := (ch.1.1, ch.1.2).

(** The invariant of the optimizer loop. *)
Definition loop_inv (s : loop_state) : Prop :=
  wf_grid s.1 ∧ wf_catalog s.1 ∧ is_free_set s.1 s.2.

(** ** Vocabulary of the path statements *)

(** [v] is in the adjacency list of [u]. *)
Definition edge (graph : gmap coord (list coord)) (u v : coord) : Prop :=
  ∃ l, graph !! u = Some l ∧ v ∈ l.

(** The adjacency graph over the committed placements: an edge joins two
    placements within Chebyshev distance [r]. *)
Definition adjacent (towers : list coord) (r : Z) (u v : coord) : Prop :=
  u ∈ towers ∧ v ∈ towers ∧ chebyshev u v ≤ r.

(** [walk E u p w]: the node list [p] leads from [u] to [w] along edges of
    [E]; it has [length p - 1] edges. *)
Inductive walk (E : coord → coord → Prop) : coord → list coord → coord → Prop :=
  | walk_one u : walk E u [u] u
  | walk_cons u v p w : E u v → walk E v p w → walk E u (u :: p) w.

(** [t1] occurs before [t2] in the list. *)
Definition earlier (l : list coord) (t1 t2 : coord) : Prop :=
  ∃ l1 l2, l = l1 ++ t1 :: l2 ∧ t2 ∈ l2.

(** The queue is in non-decreasing order of path length, and no path in it
    is more than one node longer than the first one. *)
Fixpoint layered (queue : list (coord * list coord)) : Prop :=
  match queue with
  | [] => True
  | e :: rest =>
      Forall (λ e', length e.2 ≤ length e'.2 ≤ S (length e.2))%nat rest ∧
      layered rest
  end.

(** The invariant of the search loop: every queue entry carries a path from
    [start] to its node; the queue is layered; and every path from [start]
    to [end_] passes through a queued node that the search reached at least
    as early as the path does, with nothing visited after it on the path. *)
Record bfs_inv (graph : gmap coord (list coord)) (start end_ : coord)
    (visited : gset coord) (queue : list (coord * list coord)) : Prop := {
  inv_paths : ∀ u p, (u, p) ∈ queue → walk (edge graph) start p u;
  inv_layered : layered queue;
  inv_intercept : ∀ ws, walk (edge graph) start ws end_ →
    ∃ pre u p suf, ws = pre ++ u :: suf ∧ (u, p) ∈ queue ∧
      (length p ≤ S (length pre))%nat ∧ ∀ w, w ∈ suf → w ∉ visited
}.

(** Every node in an adjacency list is a key of the dict. *)
Definition closed_graph (graph : gmap coord (list coord)) : Prop :=
  ∀ a b, edge graph a b → b ∈ dom graph.

(** ** Concrete inputs used in examples *)

Definition make_city (g : list (list Z)) (rows cols b : Z) : CityGrid :=
  {| n := rows; m := cols; grid := g; towers := []; budget := b;
     tower_types := default_tower_types |}.

(** A 3 x 5 grid with obstructions at (1,1) and (2,3), budget 150. *)
Definition city_3x5 : CityGrid :=
  make_city [[0; 0; 0; 0; 0]; [0; -1; 0; 0; 0]; [0; 0; 0; -1; 0]] 3 5 150.

(** A free 1 x 5 strip, budget 150. *)
Definition city_1x5 : CityGrid := make_city [[0; 0; 0; 0; 0]] 1 5 150.

(** A free 2 x 2 grid, budget 150. *)
Definition city_2x2 : CityGrid := make_city [[0; 0]; [0; 0]] 2 2 150.

(** The loop state of [city_1x5] after the first iteration: a small tower
    at (0,1) covers (0,0), (0,1) and (0,2). *)
Definition city_1x5_after_one : loop_state :=
  ({| n := 1; m := 5; grid := [[1; 1; 1; 0; 0]]; towers := [(0, 1)];
      budget := 135; tower_types := default_tower_types |},
   {[ (0, 3) ]} ∪ {[ (0, 4) ]}).

(** A city whose only relevant field is the list of committed towers. *)
Definition city_with_towers (ts : list coord) : CityGrid :=
  {| n := 0; m := 0; grid := []; towers := ts; budget := 0;
     tower_types := default_tower_types |}.

(** * Further definitions *)

(** What [place_towers] returns on [city_3x5]: two small towers, at (1,3)
    and at (1,0). *)
Definition city_3x5_log : list choice :=
  [(1, 3, "small"%string); (1, 0, "small"%string)].

Definition city_3x5_final : CityGrid :=
  set_budget (placed (placed city_3x5 1 3 1) 1 0 1) 120.

(** The placements of the path examples. *)
Definition city_three_towers : CityGrid :=
  city_with_towers [(0, 0); (1, 1); (5, 5)].

Definition city_diagonal_towers : CityGrid :=
  city_with_towers [(0, 0); (1, 1); (2, 2)].

Definition path_00_11 : list coord := [(0, 0); (1, 1)].

Definition path_11_22 : list coord := [(1, 1); (2, 2)].

(** ** [__init__] and [_place_obstructions] *)

(** [np.zeros((rows, cols))] for dimensions that are not negative. *)
Definition np_zeros (rows cols : Z) : list (list Z) :=
  replicate (Z.to_nat rows) (replicate (Z.to_nat cols) 0).

(** Lines 25-29, the loop of [_place_obstructions].  [obstructed_blocks] is
    the counter set at line 23 (a float product truncated by [int], not
    modelled: the loop is stated for every value of the counter).  [draws]
    holds the successive results of the two [random.randint] calls of line
    26; [randint(0, n - 1)] and [randint(0, m - 1)] return indices of the
    grid.  [None]: the draws are used up and the loop is still running. *)
Fixpoint place_obstructions_loop (draws : list coord) (g : list (list Z))
    (obstructed_blocks : Z) : option (list (list Z)) :=
  if decide (obstructed_blocks > 0) then
    match draws with
    | [] => None
    | (x, y) :: draws =>
        if decide (cell g x y = 0)
        then place_obstructions_loop draws (setitem g x y (-1))
               (obstructed_blocks - 1)
        else place_obstructions_loop draws g obstructed_blocks
    end
  else Some g.

(** Lines 8-19, with the counter of line 23 and the random draws as
    arguments.  [np.zeros] rejects a negative dimension. *)
Definition init (rows cols obstructed_blocks : Z) (draws : list coord)
    (initial_budget : Z) : option (result CityGrid) :=
  if decide (rows < 0 ∨ cols < 0)
  then Some (Raise (ValueError "negative dimensions are not allowed"))
  else
    match place_obstructions_loop draws (np_zeros rows cols) obstructed_blocks with
    | None => None
    | Some g =>
        Some (Ok {| n := rows; m := cols; grid := g; towers := [];
                    budget := initial_budget;
                    tower_types := default_tower_types |})
    end.

(** The cells of a [rows] x [cols] array that hold the value [v], in
    row-major order. *)
Definition cells_with (v : Z) (g : list (list Z)) (rows cols : Z) : list coord :=
  filter (λ c, cell g c.1 c.2 = v) (cells (py_range 0 rows) (py_range 0 cols)).

(** The draws are indices of the grid. *)
Definition draws_in_grid (rows cols : Z) (draws : list coord) : Prop :=
  Forall (λ c, 0 ≤ c.1 < rows ∧ 0 ≤ c.2 < cols) draws.

(** * Proofs *)

#[local] Set Warnings "-clear-no-such-hyp".

(** ** The model at work *)

Example place_towers_city_1x5 :
  place_towers city_1x5 =
  Some (Ok ({| n := 1; m := 5; grid := [[1; 1; 1; 1; 1]];
               towers := [(0, 1); (0, 3)]; budget := 120;
               tower_types := default_tower_types |},
            [(0, 1, "small"%string); (0, 3, "small"%string)])).
Proof. vm_compute. reflexivity. Qed.

Example place_towers_city_3x5 :
  place_towers city_3x5 =
  Some (Ok ({| n := 3; m := 5;
               grid := [[1; 1; 1; 1; 1]; [1; -1; 1; 1; 1]; [1; 1; 1; -1; 1]];
               towers := [(1, 3); (1, 0)]; budget := 120;
               tower_types := default_tower_types |},
            [(1, 3, "small"%string); (1, 0, "small"%string)])).
Proof. vm_compute. reflexivity. Qed.

Example place_towers_no_budget :
  place_towers (make_city [[0; 0]; [0; 0]] 2 2 0) =
  Some (Ok (make_city [[0; 0]; [0; 0]] 2 2 0, [])).
Proof. vm_compute. reflexivity. Qed.

Example place_tower_on_obstruction :
  place_tower city_3x5 1 1 1 = Raise invalid_placement.
Proof. reflexivity. Qed.

Example find_shortest_path_chain :
  find_shortest_path
    (city_with_towers [(0, 0); (1, 1); (2, 2); (3, 3); (1, 0)]) (0, 0) (3, 3) 1
  = Some (Ok (Some [(0, 0); (1, 1); (2, 2); (3, 3)])).
Proof. vm_compute. reflexivity. Qed.

(** ** Ranges and nested loops *)

Lemma elem_of_py_range (a b x : Z) : x ∈ py_range a b ↔ a ≤ x < b.
Proof. unfold py_range. rewrite elem_of_seqZ. lia. Qed.

Lemma elem_of_cells (xs ys : list Z) (c : coord) :
  c ∈ cells xs ys ↔ c.1 ∈ xs ∧ c.2 ∈ ys.
Proof.
  unfold cells. rewrite list_elem_of_bind. split.
  - intros (i & Hc & Hi). apply list_elem_of_bind in Hc as (j & Hc & Hj).
    apply list_elem_of_singleton in Hc as ->. done.
  - intros [Hi Hj]. exists c.1. split; [|done].
    apply list_elem_of_bind. exists c.2. split; [|done].
    destruct c. apply list_elem_of_singleton. done.
Qed.

Lemma foldl_cells {A : Type} (f : A → coord → A) (xs ys : list Z) (a : A) :
  foldl (λ a i, foldl (λ a j, f a (i, j)) a ys) a xs = foldl f a (cells xs ys).
Proof.
  revert a. induction xs as [|i xs IH]; intros a; [done|].
  unfold cells in *. cbn [foldl mbind list_bind]. rewrite foldl_app, <- IH.
  f_equal. clear IH. revert a. induction ys as [|j ys IH]; intros a; [done|].
  cbn. apply IH.
Qed.

Lemma elem_of_window (self : CityGrid) (x y r : Z) (c : coord) :
  c ∈ window self x y r ↔
  (0 ≤ c.1 < n self ∧ 0 ≤ c.2 < m self) ∧ Z.abs (c.1 - x) ≤ r ∧ Z.abs (c.2 - y) ≤ r.
Proof.
  unfold window. rewrite elem_of_cells, !elem_of_py_range. lia.
Qed.

Lemma elem_of_window_chebyshev (self : CityGrid) (x y r : Z) (c : coord) :
  c ∈ window self x y r ↔ in_bounds self c ∧ chebyshev c (x, y) ≤ r.
Proof.
  rewrite elem_of_window. unfold in_bounds, chebyshev. cbn. lia.
Qed.

(** ** The grid as an array *)

Lemma cell_setitem_eq g rows cols i j v :
  grid_shape g rows cols → 0 ≤ i < rows → 0 ≤ j < cols →
  cell (setitem g i j v) i j = v.
Proof.
  intros [Hlen Hrows] Hi Hj. unfold cell, setitem.
  rewrite list_lookup_alter_eq.
  destruct (lookup_lt_is_Some_2 g (Z.to_nat i)) as [row Hrow]; [lia|].
  rewrite Hrow. cbn.
  rewrite Forall_forall in Hrows.
  specialize (Hrows row (list_elem_of_lookup_2 _ _ _ Hrow)).
  rewrite list_lookup_insert_eq by lia. done.
Qed.

Lemma cell_setitem_ne g i j v i' j' :
  0 ≤ i → 0 ≤ j → 0 ≤ i' → 0 ≤ j' → (i, j) ≠ (i', j') →
  cell (setitem g i j v) i' j' = cell g i' j'.
Proof.
  intros Hi Hj Hi' Hj' Hne. unfold cell, setitem.
  destruct (decide (i = i')) as [->|Hii].
  - rewrite list_lookup_alter_eq. destruct (g !! Z.to_nat i') as [row|]; [|done].
    cbn. rewrite list_lookup_insert_ne; [done|].
    intros Heq. apply Hne. f_equal. lia.
  - rewrite list_lookup_alter_ne; [done|lia].
Qed.

Lemma setitem_shape g rows cols i j v :
  grid_shape g rows cols → grid_shape (setitem g i j v) rows cols.
Proof.
  intros [Hlen Hrows]. unfold setitem. split.
  - by rewrite length_alter.
  - apply Forall_alter; [done|]. intros row Hrow Hr. by rewrite length_insert.
Qed.

Lemma mark_shape g rows cols c :
  grid_shape g rows cols → grid_shape (mark g c) rows cols.
Proof. intros. unfold mark. case_decide; [by apply setitem_shape|done]. Qed.

Lemma foldl_mark_shape g rows cols l :
  grid_shape g rows cols → grid_shape (foldl mark g l) rows cols.
Proof.
  revert g. induction l as [|c l IH]; intros g Hg; [done|].
  cbn. apply IH. by apply mark_shape.
Qed.

(** What marking a cell does to every cell. *)
Lemma cell_mark g rows cols c c' :
  grid_shape g rows cols →
  0 ≤ c.1 < rows → 0 ≤ c.2 < cols → 0 ≤ c'.1 → 0 ≤ c'.2 →
  cell (mark g c) c'.1 c'.2 =
    if decide (c' = c ∧ cell g c'.1 c'.2 ≠ -1) then 1 else cell g c'.1 c'.2.
Proof.
  intros Hg Hi Hj Hi' Hj'. unfold mark.
  destruct c as [i j], c' as [i' j']. cbn in *.
  destruct (decide ((i', j') = (i, j))) as [Heq|Hne].
  - injection Heq as -> ->. repeat case_decide; try tauto; try done.
    by eapply cell_setitem_eq.
  - case_decide.
    + rewrite cell_setitem_ne by (try lia; congruence).
      case_decide; [tauto|done].
    + case_decide; [tauto|done].
Qed.

(** What the marking loop does to every cell. *)
Lemma cell_foldl_mark g rows cols l c' :
  grid_shape g rows cols →
  (∀ c, c ∈ l → 0 ≤ c.1 < rows ∧ 0 ≤ c.2 < cols) →
  0 ≤ c'.1 → 0 ≤ c'.2 →
  cell (foldl mark g l) c'.1 c'.2 =
    if decide (c' ∈ l ∧ cell g c'.1 c'.2 ≠ -1) then 1 else cell g c'.1 c'.2.
Proof.
  intros Hg Hl Hi' Hj'. revert g Hg.
  induction l as [|c l IH]; intros g Hg.
  - cbn. case_decide as H; [|done]. destruct H as [H _]. by apply elem_of_nil in H.
  - cbn [foldl]. rewrite IH; [|intros c0 Hc0; apply Hl; by right|by eapply mark_shape].
    destruct (Hl c) as [Hc1 Hc2]; [left|].
    rewrite (cell_mark g rows cols) by (done || lia).
    repeat case_decide; try done; rewrite elem_of_cons in *; intuition congruence.
Qed.

Lemma mark_window_cells g x_start x_end y_start y_end :
  mark_window g x_start x_end y_start y_end =
  foldl mark g (cells (py_range x_start x_end) (py_range y_start y_end)).
Proof. unfold mark_window. apply (foldl_cells mark). Qed.

(** ** [calculate_coverage] *)

Lemma elem_of_foldl_collect (S : gset coord) (l : list coord) (acc : gset coord) c :
  c ∈ foldl (λ cb c, if decide (c ∈ S) then cb ∪ {[ c ]} else cb) acc l ↔
  c ∈ acc ∨ (c ∈ l ∧ c ∈ S).
Proof.
  revert acc. induction l as [|c0 l IH]; intros acc; cbn.
  - rewrite elem_of_nil. tauto.
  - rewrite IH, elem_of_cons. case_decide; set_solver.
Qed.

Lemma elem_of_calculate_coverage (self : CityGrid) (x y r : Z) (S : gset coord) c :
  c ∈ calculate_coverage self x y r S ↔ c ∈ window self x y r ∧ c ∈ S.
Proof.
  unfold calculate_coverage, window.
  rewrite (foldl_cells (λ cb c, if decide (c ∈ S) then cb ∪ {[ c ]} else cb)).
  rewrite elem_of_foldl_collect. set_solver.
Qed.

Lemma calculate_coverage_subseteq (self : CityGrid) (x y r : Z) (S : gset coord) :
  calculate_coverage self x y r S ⊆ S.
Proof. intros c. rewrite elem_of_calculate_coverage. tauto. Qed.

(** ** [place_tower] *)

Lemma np_index_in_range len i : 0 ≤ i < len → np_index len i = Some i.
Proof. intros. unfold np_index. by rewrite decide_True. Qed.

Lemma getitem_in_bounds self x y :
  wf_grid self → in_bounds self (x, y) →
  getitem (grid self) x y = Ok (cell (grid self) x y).
Proof.
  intros (Hn & Hm & Hlen & Hrows) [Hx Hy]. cbn in Hx, Hy.
  unfold getitem, cell. rewrite np_index_in_range by lia.
  destruct (lookup_lt_is_Some_2 (grid self) (Z.to_nat x)) as [row Hrow]; [lia|].
  rewrite Hrow. cbn.
  rewrite Forall_forall in Hrows.
  specialize (Hrows row (list_elem_of_lookup_2 _ _ _ Hrow)).
  rewrite np_index_in_range by lia.
  destruct (lookup_lt_is_Some_2 row (Z.to_nat y)) as [v Hv]; [lia|].
  by rewrite Hv.
Qed.

Lemma wf_grid_shape self : wf_grid self → grid_shape (grid self) (n self) (m self).
Proof. intros (_ & _ & H1 & H2). by split. Qed.

Lemma place_tower_unfold self x y r :
  place_tower self x y r =
  v ← getitem (grid self) x y;
  if decide (v = -1) then Raise invalid_placement else Ok (placed self x y r).
Proof.
  unfold place_tower, placed, window. by rewrite mark_window_cells.
Qed.

Lemma placed_wf self x y r : wf_grid self → wf_grid (placed self x y r).
Proof.
  intros Hwf. pose proof (wf_grid_shape _ Hwf) as Hs.
  destruct Hwf as (Hn & Hm & _).
  apply (foldl_mark_shape _ _ _ (window self x y r)) in Hs as [? ?].
  by repeat split.
Qed.

Lemma cell_placed self x y r c :
  wf_grid self → 0 ≤ c.1 → 0 ≤ c.2 →
  cell (grid (placed self x y r)) c.1 c.2 =
    if decide (c ∈ window self x y r ∧ cell (grid self) c.1 c.2 ≠ -1)
    then 1 else cell (grid self) c.1 c.2.
Proof.
  intros Hwf H1 H2. cbn.
  apply (cell_foldl_mark _ (n self) (m self)); [by apply wf_grid_shape| |done..].
  intros c0. rewrite elem_of_window. tauto.
Qed.

Lemma place_tower_in_bounds self x y r :
  wf_grid self → in_bounds self (x, y) →
  place_tower self x y r =
    if decide (cell (grid self) x y = -1)
    then Raise invalid_placement else Ok (placed self x y r).
Proof.
  intros Hwf Hb. rewrite place_tower_unfold, getitem_in_bounds by done. done.
Qed.

(** After a placement the Free cells are the Free cells from before that
    lie outside the tower's window. *)
Lemma free_after_placed self x y r c :
  wf_grid self → in_bounds self c →
  cell (grid (placed self x y r)) c.1 c.2 = 0 ↔
  cell (grid self) c.1 c.2 = 0 ∧ c ∉ window self x y r.
Proof.
  intros Hwf [Hc1 Hc2]. rewrite cell_placed by (done || lia).
  case_decide as H.
  - destruct H. split; [done|]. tauto.
  - split; [|tauto]. intros H0. split; [done|]. intros Hw. apply H. split; [done|]. lia.
Qed.

Lemma is_free_set_placed (self : CityGrid) (x y r : Z) (S : gset coord) :
  wf_grid self → is_free_set self S →
  is_free_set (placed self x y r) (S ∖ calculate_coverage self x y r S).
Proof.
  intros Hwf HS c. rewrite elem_of_difference, elem_of_calculate_coverage, (HS c).
  change (in_bounds (placed self x y r) c) with (in_bounds self c).
  split.
  - intros [[Hb H0] Hnot]. split; [done|].
    apply free_after_placed; [done..|]. split; [done|]. tauto.
  - intros [Hb H0]. apply free_after_placed in H0 as [H0 Hw]; [|done..].
    tauto.
Qed.

(** ** The Free cells *)

Lemma free_cells_filter (self : CityGrid) :
  free_cells self =
  filter (λ c, cell (grid self) c.1 c.2 = 0)
    (cells (py_range 0 (n self)) (py_range 0 (m self))).
Proof.
  unfold free_cells, cells.
  induction (py_range 0 (n self)) as [|i xs IH]; [done|].
  cbn [mbind list_bind]. rewrite filter_app, <- IH. f_equal.
  clear IH. induction (py_range 0 (m self)) as [|j ys IH]; [done|].
  cbn [mbind list_bind app]. cbn [app] in IH. rewrite filter_cons. cbn [fst snd].
  case_decide; cbn [app]; by rewrite IH.
Qed.

Lemma elem_of_free_cells (self : CityGrid) (c : coord) :
  c ∈ free_cells self ↔ in_bounds self c ∧ cell (grid self) c.1 c.2 = 0.
Proof.
  rewrite free_cells_filter, list_elem_of_filter, elem_of_cells, !elem_of_py_range.
  unfold in_bounds. lia.
Qed.

Lemma initial_uncovered_is_free (self : CityGrid) :
  is_free_set self (initial_uncovered self).
Proof.
  intros c. unfold initial_uncovered.
  rewrite elem_of_list_to_set. apply elem_of_free_cells.
Qed.

Ltac solve_wf_grid :=
  unfold wf_grid; cbn; repeat split; try lia; repeat constructor.

(** ** Claims about [place_tower] and [calculate_coverage] *)

(** C7 (amended).  For a target cell [(x, y)] inside the grid, [place_tower]
    fails with the InvalidPlacement error exactly when the cell is
    obstructed.  Otherwise it succeeds whatever the state of the cells
    around: it appends [(x, y)] to [towers], sets every in-bounds,
    non-obstructed cell within Chebyshev distance [r] to Covered, and leaves
    every other cell as it was. *)
Theorem place_tower_spec (self : CityGrid) (x y r : Z) :
  wf_grid self → in_bounds self (x, y) →
  (place_tower self x y r = Raise invalid_placement ↔
     cell (grid self) x y = -1) ∧
  (cell (grid self) x y ≠ -1 →
     ∃ self', place_tower self x y r = Ok self' ∧
       towers self' = towers self ++ [(x, y)] ∧
       ∀ c, in_bounds self c →
         cell (grid self') c.1 c.2 =
           if decide (chebyshev c (x, y) ≤ r ∧ cell (grid self) c.1 c.2 ≠ -1)
           then 1 else cell (grid self) c.1 c.2).
Proof.
  intros Hwf Hb. rewrite place_tower_in_bounds by done. split.
  - case_decide; split; (done || congruence).
  - intros Hfree. rewrite decide_False by done.
    exists (placed self x y r). split; [done|]. split; [done|].
    intros c Hc. destruct (Hc) as [Hc1 Hc2].
    rewrite cell_placed by (done || lia).
    pose proof (elem_of_window_chebyshev self x y r c) as Hw.
    repeat case_decide; (done || tauto).
Qed.

Lemma place_tower_spec_witness :
  place_tower city_3x5 1 1 2 = Raise invalid_placement ↔
  cell (grid city_3x5) 1 1 = -1.
Proof.
  apply (place_tower_spec city_3x5 1 1 2).
  - solve_wf_grid.
  - unfold in_bounds. cbn. lia.
Defined.

(** C7 as stated fails: an out-of-bounds target is not rejected with
    InvalidPlacement.  Row index [-1] wraps to the last row, the guard reads
    a Free cell and the placement is carried out and recorded; row index [2]
    makes the array lookup raise an index error instead. *)
Lemma place_tower_out_of_bounds_counterexample :
  ¬ in_bounds city_2x2 (-1, 0) ∧
  place_tower city_2x2 (-1) 0 1 ≠ Raise invalid_placement ∧
  place_tower city_2x2 (-1) 0 1 =
    Ok {| n := 2; m := 2; grid := [[1; 1]; [0; 0]]; towers := [(-1, 0)];
          budget := 150; tower_types := default_tower_types |} ∧
  ¬ in_bounds city_2x2 (2, 0) ∧
  place_tower city_2x2 2 0 1 = Raise IndexError.
Proof.
  unfold in_bounds. cbn.
  split; [lia|]. split; [discriminate|]. split; [reflexivity|].
  split; [lia|reflexivity].
Qed.

(** C4.  For an in-bounds, non-obstructed cell [(x, y)], any range [r] and
    the uncovered set [S] of the loop (the Free cells of the grid before
    the commit): [calculate_coverage] returns exactly the members of [S]
    within Chebyshev distance [r] of [(x, y)], and [S] minus that set is
    exactly the set of cells that are Free in the grid after
    [place_tower].  The query gives the same set whether it is asked before
    or after the placement. *)
Theorem coverage_consistent_with_place_tower
    (self : CityGrid) (x y r : Z) (S : gset coord) :
  wf_grid self → in_bounds self (x, y) → cell (grid self) x y ≠ -1 →
  is_free_set self S →
  (∀ c, c ∈ calculate_coverage self x y r S ↔ c ∈ S ∧ chebyshev c (x, y) ≤ r) ∧
  ∃ self', place_tower self x y r = Ok self' ∧
    calculate_coverage self' x y r S = calculate_coverage self x y r S ∧
    is_free_set self' (S ∖ calculate_coverage self x y r S).
Proof.
  intros Hwf Hb Hfree HS. split.
  - intros c. rewrite elem_of_calculate_coverage, elem_of_window_chebyshev.
    specialize (HS c). tauto.
  - exists (placed self x y r). rewrite place_tower_in_bounds by done.
    rewrite decide_False by done. split; [done|]. split; [done|].
    by apply is_free_set_placed.
Qed.

Lemma coverage_consistent_with_place_tower_witness :
  (0, 2) ∈ calculate_coverage city_3x5 1 3 1 (initial_uncovered city_3x5) ↔
  (0, 2) ∈ initial_uncovered city_3x5 ∧ chebyshev (0, 2) (1, 3) ≤ 1.
Proof.
  refine (proj1 (coverage_consistent_with_place_tower city_3x5 1 3 1
           (initial_uncovered city_3x5) _ _ _ _) (0, 2)).
  - solve_wf_grid.
  - unfold in_bounds. cbn. lia.
  - vm_compute. discriminate.
  - apply initial_uncovered_is_free.
Defined.

(** ** The scan of one iteration *)

Lemma foldl_filter {A B : Type} (P : B → Prop) `{!∀ x, Decision (P x)}
    (f : A → B → A) (l : list B) (a : A) :
  foldl (λ a x, if decide (P x) then f a x else a) a l = foldl f a (filter P l).
Proof.
  revert a. induction l as [|x l IH]; intros a; [done|].
  cbn [foldl]. rewrite filter_cons. case_decide; cbn [foldl]; apply IH.
Qed.

Lemma scan_type_candidates (self : CityGrid) (unc : gset coord) (acc : best)
    (item : string * tower_properties) :
  scan_type self unc acc item =
  foldl (consider self unc) acc
    (if decide (budget self < Z.pos (cost item.2)) then []
     else (λ c, (c, item)) <$> free_cells self).
Proof.
  unfold scan_type. case_decide; [done|].
  rewrite (foldl_cells (λ acc c,
    evaluate self unc item.1 (range item.2) (cost item.2) acc c.1 c.2)).
  unfold evaluate.
  rewrite (foldl_filter (λ c, cell (grid self) c.1 c.2 = 0)
    (λ acc c, consider self unc acc (c, item))).
  rewrite <- free_cells_filter.
  generalize (free_cells self). intros l. revert acc.
  induction l as [|c l IH]; intros acc; [done|]. cbn. apply IH.
Qed.

(** The nested loops of the scan evaluate the candidates one after the
    other. *)
Lemma scan_candidates (self : CityGrid) (unc : gset coord) :
  scan self unc = foldl (consider self unc) (None, 0%Q) (candidates self).
Proof.
  unfold scan, candidates. generalize (None : option choice, 0%Q).
  induction (tower_types self) as [|item l IH]; intros acc; [done|].
  cbn [foldl mbind list_bind]. rewrite foldl_app, <- IH.
  by rewrite scan_type_candidates.
Qed.

Lemma elem_of_candidates (self : CityGrid) (cand : candidate) :
  cand ∈ candidates self ↔
  cand.2 ∈ tower_types self ∧ Z.pos (cost cand.2.2) ≤ budget self ∧
  in_bounds self cand.1 ∧ cell (grid self) cand.1.1 cand.1.2 = 0.
Proof.
  unfold candidates. rewrite list_elem_of_bind. split.
  - intros (item & Hc & Hitem). case_decide; [by apply elem_of_nil in Hc|].
    apply list_elem_of_fmap in Hc as (c & -> & Hc).
    apply elem_of_free_cells in Hc. cbn. split; [done|]. split; [lia|done].
  - intros (Hitem & Hcost & Hc). exists cand.2. split; [|done].
    rewrite decide_False by lia. apply list_elem_of_fmap. exists cand.1.
    split; [by destruct cand|]. by apply elem_of_free_cells.
Qed.

Lemma consider_lt (self : CityGrid) (unc : gset coord) (acc : best) (c : candidate) :
  (acc.2 < value self unc c)%Q →
  consider self unc acc c = (Some (choice_of c), value self unc c).
Proof.
  intros H. unfold consider. destruct (Qlt_le_dec _ _) as [_|Hle]; [done|].
  exfalso. by apply (Qlt_not_le _ _ H).
Qed.

Lemma consider_le (self : CityGrid) (unc : gset coord) (acc : best) (c : candidate) :
  (value self unc c <= acc.2)%Q → consider self unc acc c = acc.
Proof.
  intros H. unfold consider. destruct (Qlt_le_dec _ _) as [Hlt|_]; [|done].
  exfalso. by apply (Qlt_not_le _ _ Hlt).
Qed.

(** The scan keeps the first candidate of greatest value, if that value is
    above the initial [best_value]. *)
Lemma foldl_consider_first_max (self : CityGrid) (unc : gset coord)
    (l : list candidate) (acc : best) :
  (foldl (consider self unc) acc l = acc ∧
   ∀ c, c ∈ l → (value self unc c <= acc.2)%Q) ∨
  (∃ l1 c l2, l = l1 ++ c :: l2 ∧
     foldl (consider self unc) acc l = (Some (choice_of c), value self unc c) ∧
     (acc.2 < value self unc c)%Q ∧
     (∀ c', c' ∈ l1 → (value self unc c' < value self unc c)%Q) ∧
     (∀ c', c' ∈ l2 → (value self unc c' <= value self unc c)%Q)).
Proof.
  induction l as [|z l IH] using rev_ind.
  - left. split; [done|]. intros c Hc. by apply elem_of_nil in Hc.
  - rewrite foldl_app. cbn [foldl].
    destruct IH as [[-> Hall]|(l1 & c & l2 & -> & -> & Hacc & Hl1 & Hl2)].
    + destruct (Qlt_le_dec acc.2 (value self unc z)) as [Hlt|Hle].
      * right. exists l, z, []. rewrite consider_lt by done.
        split; [done|]. split; [done|]. split; [done|]. split.
        -- intros c' Hc'. eapply Qle_lt_trans; [by apply Hall|done].
        -- intros c' Hc'. by apply elem_of_nil in Hc'.
      * left. rewrite consider_le by done. split; [done|]. intros c Hc.
        apply elem_of_app in Hc as [Hc|Hc]; [by apply Hall|].
        apply list_elem_of_singleton in Hc as ->. done.
    + right.
      destruct (Qlt_le_dec (value self unc c) (value self unc z)) as [Hlt|Hle].
      * exists (l1 ++ c :: l2), z, []. rewrite consider_lt by done.
        split; [done|]. split; [done|].
        split; [by eapply Qlt_trans|]. split.
        -- intros c' Hc'. apply elem_of_app in Hc' as [Hc'|Hc'].
           ++ eapply Qlt_trans; [by apply Hl1|done].
           ++ apply elem_of_cons in Hc' as [->|Hc']; [done|].
              eapply Qle_lt_trans; [by apply Hl2|done].
        -- intros c' Hc'. by apply elem_of_nil in Hc'.
      * exists l1, c, (l2 ++ [z]). rewrite consider_le by done.
        split; [by rewrite <- app_assoc|].
        split; [done|]. split; [done|]. split; [done|].
        intros c' Hc'. apply elem_of_app in Hc' as [Hc'|Hc']; [by apply Hl2|].
        apply list_elem_of_singleton in Hc' as ->. done.
Qed.

Lemma value_pos (self : CityGrid) (unc : gset coord) (c : candidate) :
  (0 < value self unc c)%Q ↔
  calculate_coverage self c.1.1 c.1.2 (range c.2.2) unc ≠ ∅.
Proof.
  unfold value, Qlt. cbn. rewrite Z.mul_1_r.
  rewrite <- (leibniz_equiv_iff _ ∅), <- size_non_empty_iff. lia.
Qed.

Lemma value_nonneg (self : CityGrid) (unc : gset coord) (c : candidate) :
  (0 <= value self unc c)%Q.
Proof. unfold value, Qle. cbn. lia. Qed.

(** What the scan returns. *)
Lemma scan_spec (self : CityGrid) (unc : gset coord) :
  match (scan self unc).1 with
  | Some ch =>
      ∃ l1 c l2, candidates self = l1 ++ c :: l2 ∧ ch = choice_of c ∧
        (0 < value self unc c)%Q ∧
        (∀ c', c' ∈ l1 → (value self unc c' < value self unc c)%Q) ∧
        (∀ c', c' ∈ l2 → (value self unc c' <= value self unc c)%Q)
  | None => ∀ c, c ∈ candidates self → (value self unc c == 0)%Q
  end.
Proof.
  rewrite scan_candidates.
  destruct (foldl_consider_first_max self unc (candidates self) (None, 0%Q))
    as [[-> Hall]|(l1 & c & l2 & Hl & -> & Hpos & Hl1 & Hl2)]; cbn [fst].
  - intros c Hc. apply Qle_antisym; [by apply Hall|apply value_nonneg].
  - exists l1, c, l2. done.
Qed.

Lemma tower_type_lookup_elem (self : CityGrid) (t : string) (p : tower_properties) :
  wf_catalog self → (t, p) ∈ tower_types self → tower_type_lookup self t = Ok p.
Proof.
  intros Hnd Hin. unfold tower_type_lookup.
  by rewrite (elem_of_list_to_map_1 _ _ _ Hnd Hin).
Qed.

(** What one pass through the [while] statement does when the loop
    invariant holds. *)
Lemma place_towers_body_spec (self : CityGrid) (unc : gset coord) :
  loop_inv (self, unc) →
  place_towers_body self unc = Ok Exit ∨
  ∃ x y t p,
    (t, p) ∈ tower_types self ∧ Z.pos (cost p) ≤ budget self ∧
    0 < budget self ∧
    in_bounds self (x, y) ∧ cell (grid self) x y = 0 ∧
    calculate_coverage self x y (range p) unc ≠ ∅ ∧
    (scan self unc).1 = Some (x, y, t) ∧
    tower_type_lookup self t = Ok p ∧
    place_towers_body self unc =
      Ok (Next (set_budget (placed self x y (range p))
                  (budget self - Z.pos (cost p)))
               (unc ∖ calculate_coverage self x y (range p) unc)
               (x, y, t)).
Proof.
  intros (Hwf & Hcat & Hfree). cbn [fst snd] in *.
  unfold place_towers_body. case_decide as Hcond; [|by left].
  pose proof (scan_spec self unc) as Hscan.
  destruct (scan self unc).1 as [[[x y] t]|]; [|by left].
  destruct Hscan as (l1 & c & l2 & Hl & Hch & Hpos & _).
  assert (c ∈ candidates self) as Hc by (rewrite Hl; set_solver).
  apply elem_of_candidates in Hc as (Hitem & Hcost & Hb & Hcell).
  destruct c as [[x' y'] [t' p]]. injection Hch as -> -> ->. cbn in *.
  apply value_pos in Hpos. cbn in Hpos.
  right. exists x', y', t', p.
  rewrite (tower_type_lookup_elem self t' p) by done. cbn.
  rewrite place_tower_in_bounds by done.
  rewrite decide_False by lia. cbn.
  repeat (split; [done || lia|]). done.
Qed.

(** ** The optimizer loop *)

(** One committed iteration, seen from the invariant. *)
Lemma iteration_inv (self : CityGrid) (unc : gset coord)
    (self' : CityGrid) (unc' : gset coord) (ch : choice) :
  loop_inv (self, unc) →
  place_towers_body self unc = Ok (Next self' unc' ch) →
  ∃ x y t p,
    ch = (x, y, t) ∧
    (t, p) ∈ tower_types self ∧ tower_type_lookup self t = Ok p ∧
    Z.pos (cost p) ≤ budget self ∧ 0 < budget self ∧
    in_bounds self (x, y) ∧ cell (grid self) x y = 0 ∧
    calculate_coverage self x y (range p) unc ≠ ∅ ∧
    (scan self unc).1 = Some ch ∧
    self' = set_budget (placed self x y (range p)) (budget self - Z.pos (cost p)) ∧
    unc' = unc ∖ calculate_coverage self x y (range p) unc ∧
    loop_inv (self', unc').
Proof.
  intros Hinv Hbody.
  destruct (place_towers_body_spec self unc Hinv)
    as [Hexit|(x & y & t & p & Hitem & Hcost & Hbud & Hb & Hcell & Hcov & Hscan & Hlook & Hnext)].
  { congruence. }
  rewrite Hnext in Hbody. injection Hbody as <- <- <-.
  exists x, y, t, p. repeat (split; [done|]).
  destruct Hinv as (Hwf & Hcat & Hfree). cbn [fst snd] in *.
  split; [|split]; cbn [fst snd].
  - by apply (placed_wf self x y (range p)).
  - done.
  - by apply (is_free_set_placed self x y (range p) unc).
Qed.

Lemma runs_inv (s s' : loop_state) (log : list choice) :
  runs s log s' → loop_inv s → loop_inv s'.
Proof.
  induction 1 as [|[self unc] self' unc' ch log s'' Hbody _ IH]; [done|].
  intros Hinv. apply IH.
  by destruct (iteration_inv _ _ _ _ _ Hinv Hbody) as (?&?&?&?&?&?&?&?&?&?&?&?&?&?&?&?).
Qed.

Lemma runs_app (s s' s'' : loop_state) (log log' : list choice) :
  runs s log s' → runs s' log' s'' → runs s (log ++ log') s''.
Proof.
  induction 1 as [|s0 self' unc' ch log s1 Hbody _ IH]; [done|].
  intros H. cbn. eapply runs_cons; [done|]. by apply IH.
Qed.

(** Every committed iteration shrinks the uncovered set. *)
Lemma iteration_shrinks (self : CityGrid) (unc : gset coord)
    (self' : CityGrid) (unc' : gset coord) (ch : choice) :
  loop_inv (self, unc) →
  place_towers_body self unc = Ok (Next self' unc' ch) →
  (size unc' < size unc)%nat.
Proof.
  intros Hinv Hbody.
  destruct (iteration_inv _ _ _ _ _ Hinv Hbody)
    as (x & y & t & p & _ & _ & _ & _ & _ & _ & _ & Hcov & _ & _ & -> & _).
  apply subset_size.
  pose proof (calculate_coverage_subseteq self x y (range p) unc).
  apply set_choose_L in Hcov as [c Hc]. set_solver.
Qed.

(** The loop finishes within the fuel it is given, without raising, and
    what it returns is the end of a run. *)
Lemma place_towers_loop_runs (fuel : nat) (self : CityGrid) (unc : gset coord)
    (log : list choice) :
  loop_inv (self, unc) → (size unc < fuel)%nat →
  ∃ final unc' chs,
    place_towers_loop fuel self unc log = Some (Ok (final, log ++ chs)) ∧
    runs (self, unc) chs (final, unc') ∧
    place_towers_body final unc' = Ok Exit.
Proof.
  revert self unc log. induction fuel as [|fuel IH]; intros self unc log Hinv Hfuel.
  { lia. }
  cbn [place_towers_loop].
  destruct (place_towers_body self unc) as [[|self' unc' ch]|e] eqn:Hbody.
  - exists self, unc, []. rewrite app_nil_r. split; [done|]. split; [constructor|done].
  - pose proof (iteration_shrinks _ _ _ _ _ Hinv Hbody) as Hlt.
    destruct (iteration_inv _ _ _ _ _ Hinv Hbody)
      as (_ & _ & _ & _ & _ & _ & _ & _ & _ & _ & _ & _ & _ & _ & _ & Hinv').
    destruct (IH self' unc' (log ++ [ch]) Hinv') as (final & unc'' & chs & Hloop & Hruns & Hexit).
    { lia. }
    exists final, unc'', (ch :: chs). rewrite Hloop, <- app_assoc.
    split; [done|]. split; [|done]. by eapply runs_cons.
  - destruct (place_towers_body_spec self unc Hinv)
      as [Hexit|(x & y & t & p & _ & _ & _ & _ & _ & _ & _ & _ & Hnext)]; congruence.
Qed.

Lemma loop_start_inv (self : CityGrid) :
  wf_grid self → wf_catalog self → loop_inv (loop_start self).
Proof.
  intros Hwf Hcat. split; [done|]. split; [done|].
  apply initial_uncovered_is_free.
Qed.

Lemma place_towers_runs (self : CityGrid) :
  wf_grid self → wf_catalog self →
  ∃ final unc' log,
    place_towers self = Some (Ok (final, log)) ∧
    runs (loop_start self) log (final, unc') ∧
    place_towers_body final unc' = Ok Exit.
Proof.
  intros Hwf Hcat. unfold place_towers.
  destruct (place_towers_loop_runs (S (size (initial_uncovered self))) self
              (initial_uncovered self) [])
    as (final & unc' & chs & Hloop & Hruns & Hexit).
  - by apply loop_start_inv.
  - lia.
  - exists final, unc', chs. done.
Qed.

(** *** The budget along a run *)

Lemma spent_ext (self self' : CityGrid) (log : list choice) :
  tower_types self' = tower_types self → spent self' log = spent self log.
Proof.
  intros Heq. unfold spent, choice_cost, tower_type_lookup. by rewrite Heq.
Qed.

Lemma spent_nonneg (self : CityGrid) (log : list choice) : 0 ≤ spent self log.
Proof.
  induction log as [|ch log IH]; [done|].
  change (0 ≤ choice_cost self ch + spent self log).
  unfold choice_cost. destruct (tower_type_lookup self ch.2); lia.
Qed.

Lemma runs_budget (s s' : loop_state) (log : list choice) :
  runs s log s' → loop_inv s →
  tower_types s'.1 = tower_types s.1 ∧
  budget s'.1 = budget s.1 - spent s.1 log ∧
  (0 ≤ budget s.1 → 0 ≤ budget s'.1).
Proof.
  induction 1 as [s|[self unc] self' unc' ch log s'' Hbody _ IH]; intros Hinv.
  { cbn. split; [done|]. split; [lia|done]. }
  destruct (iteration_inv _ _ _ _ _ Hinv Hbody)
    as (x & y & t & p & -> & _ & Hlook & Hcost & _ & _ & _ & _ & _ & -> & _ & Hinv').
  destruct (IH Hinv') as (Htypes & Hbudget & Hnonneg). cbn [fst snd] in *.
  split; [done|]. split.
  - rewrite Hbudget.
    change (spent self ((x, y, t) :: log))
      with (choice_cost self (x, y, t) + spent self log).
    unfold choice_cost. cbn [snd]. rewrite Hlook.
    rewrite (spent_ext self) by done. cbn [budget set_budget placed]. lia.
  - intros _. apply Hnonneg. cbn [budget set_budget]. lia.
Qed.

(** *** The tower list along a run *)

Lemma runs_towers (s s' : loop_state) (log : list choice) :
  runs s log s' → loop_inv s →
  towers s'.1 = towers s.1 ++ (choice_coord <$> log).
Proof.
  induction 1 as [s|[self unc] self' unc' ch log s'' Hbody _ IH]; intros Hinv.
  { cbn. by rewrite app_nil_r. }
  destruct (iteration_inv _ _ _ _ _ Hinv Hbody)
    as (x & y & t & p & -> & _ & _ & _ & _ & _ & _ & _ & _ & -> & _ & Hinv').
  rewrite (IH Hinv'). cbn. by rewrite <- app_assoc.
Qed.

(** *** The grid along a run *)

Lemma placed_cell_facts (self : CityGrid) (x y r : Z) (c : coord) :
  wf_grid self → in_bounds self c →
  (cell (grid (placed self x y r)) c.1 c.2 = -1 ↔ cell (grid self) c.1 c.2 = -1) ∧
  (cell (grid self) c.1 c.2 = 1 → cell (grid (placed self x y r)) c.1 c.2 = 1) ∧
  (cell (grid (placed self x y r)) c.1 c.2 = 0 → cell (grid self) c.1 c.2 = 0).
Proof.
  intros Hwf [Hc1 Hc2]. rewrite cell_placed by (done || lia).
  case_decide as H; [|tauto]. destruct H as [_ H].
  split; [|done]. split; [done|]. intros Hm. by destruct H.
Qed.

Lemma runs_grid (s s' : loop_state) (log : list choice) :
  runs s log s' → loop_inv s →
  n s'.1 = n s.1 ∧ m s'.1 = m s.1 ∧
  ∀ c, in_bounds s.1 c →
    (cell (grid s'.1) c.1 c.2 = -1 ↔ cell (grid s.1) c.1 c.2 = -1) ∧
    (cell (grid s.1) c.1 c.2 = 1 → cell (grid s'.1) c.1 c.2 = 1) ∧
    (cell (grid s'.1) c.1 c.2 = 0 → cell (grid s.1) c.1 c.2 = 0).
Proof.
  induction 1 as [s|[self unc] self' unc' ch log s'' Hbody _ IH]; intros Hinv.
  { done. }
  destruct (iteration_inv _ _ _ _ _ Hinv Hbody)
    as (x & y & t & p & -> & _ & _ & _ & _ & _ & _ & _ & _ & -> & _ & Hinv').
  destruct (IH Hinv') as (Hn & Hm & Hcells). cbn [fst snd] in *.
  split; [done|]. split; [done|]. intros c Hc.
  destruct Hinv as (Hwf & _). cbn [fst] in Hwf.
  destruct (placed_cell_facts self x y (range p) c Hwf Hc) as (H1 & H2 & H3).
  destruct (Hcells c Hc) as (H1' & H2' & H3'). cbn [grid set_budget] in *.
  split; [|split]; [tauto| |]; auto.
Qed.

(** *** The committed choices of a run *)

Lemma coverage_nonempty_range (self : CityGrid) (x y r : Z) (S : gset coord) :
  calculate_coverage self x y r S ≠ ∅ → 0 ≤ r.
Proof.
  intros H. apply set_choose_L in H as [c Hc].
  apply elem_of_calculate_coverage in Hc as [Hc _].
  apply elem_of_window in Hc. lia.
Qed.

Lemma runs_choices (s s' : loop_state) (log : list choice) :
  runs s log s' → loop_inv s →
  NoDup (choice_coord <$> log) ∧
  ∀ ch, ch ∈ log →
    in_bounds s.1 (choice_coord ch) ∧
    cell (grid s.1) (choice_coord ch).1 (choice_coord ch).2 = 0 ∧
    cell (grid s'.1) (choice_coord ch).1 (choice_coord ch).2 = 1.
Proof.
  induction 1 as [s|[self unc] self' unc' ch log s'' Hbody Hruns IH]; intros Hinv.
  { split; [constructor|]. intros ch Hch. by apply elem_of_nil in Hch. }
  destruct (iteration_inv _ _ _ _ _ Hinv Hbody)
    as (x & y & t & p & -> & _ & _ & _ & _ & Hb & Hcell & Hcov & _ & -> & _ & Hinv').
  destruct (IH Hinv') as (Hnd & Hlog).
  destruct (runs_grid _ _ _ Hruns Hinv') as (_ & _ & Hgrid).
  pose proof Hinv as (Hwf & _). cbn [fst snd] in *.
  apply coverage_nonempty_range in Hcov.
  assert (cell (grid (placed self x y (range p))) x y = 1) as Hone.
  { pose proof (cell_placed self x y (range p) (x, y) Hwf) as Hc.
    cbn [fst snd] in Hc. rewrite Hc by apply Hb.
    rewrite decide_True; [done|]. split; [|lia].
    apply elem_of_window. unfold in_bounds in Hb. cbn in *. lia. }
  split.
  - cbn. constructor; [|done]. intros Hin.
    apply list_elem_of_fmap in Hin as (ch' & Heq & Hch').
    destruct (Hlog ch' Hch') as (_ & H0 & _). rewrite <- Heq in H0.
    change (cell (grid (placed self x y (range p))) x y = 0) in H0. lia.
  - intros ch' Hch'. apply elem_of_cons in Hch' as [->|Hch'].
    + split; [done|]. split; [done|]. by apply (Hgrid (x, y)).
    + destruct (Hlog ch' Hch') as (Hb' & H0 & H1).
      split; [done|]. split; [|done].
      by apply (placed_cell_facts self x y (range p) (choice_coord ch')).
Qed.

Lemma runs_covered (s s' : loop_state) (log : list choice) :
  runs s log s' → loop_inv s →
  ∀ ch p c, ch ∈ log → tower_type_lookup s.1 ch.2 = Ok p →
    in_bounds s.1 c → chebyshev c (choice_coord ch) ≤ range p →
    cell (grid s'.1) c.1 c.2 ≠ 0.
Proof.
  induction 1 as [s|[self unc] self' unc' ch0 log s'' Hbody Hruns IH]; intros Hinv.
  { intros ch p c Hch. by apply elem_of_nil in Hch. }
  destruct (iteration_inv _ _ _ _ _ Hinv Hbody)
    as (x & y & t & p0 & -> & _ & Hlook0 & _ & _ & _ & _ & _ & _ & -> & _ & Hinv').
  destruct (runs_grid _ _ _ Hruns Hinv') as (_ & _ & Hgrid).
  pose proof Hinv as (Hwf & _). cbn [fst snd] in *.
  intros ch p c Hch Hlook Hc Hdist.
  apply elem_of_cons in Hch as [->|Hch].
  - cbn [snd] in Hlook. rewrite Hlook0 in Hlook. injection Hlook as <-.
    intros H0. apply (Hgrid c Hc) in H0.
    apply (free_after_placed self x y (range p0) c Hwf Hc) in H0 as [_ Hout].
    apply Hout, elem_of_window_chebyshev. done.
  - by apply (IH Hinv' ch p c).
Qed.

Ltac solve_wf_catalog :=
  unfold wf_catalog; cbn; apply (bool_decide_unpack _); vm_compute; exact I.

(** ** Claims about [place_towers] *)

(** C1.  For a grid, a catalog and a non-negative initial budget,
    [place_towers] finishes without raising, the costs of the committed
    placements sum to at most the initial budget (the final budget is the
    initial one minus that sum), the budget is non-negative at every point
    of the loop, and a tower type is a candidate of an iteration only when
    its cost is at most the budget that remains, which is what each commit
    then subtracts. *)
Theorem spent_within_budget (self : CityGrid) :
  wf_grid self → wf_catalog self → 0 ≤ budget self →
  (∃ final log,
     place_towers self = Some (Ok (final, log)) ∧
     spent self log ≤ budget self ∧
     budget final = budget self - spent self log) ∧
  (∀ log s, runs (loop_start self) log s →
     0 ≤ budget s.1 ∧
     (∀ cand, cand ∈ candidates s.1 → Z.pos (cost cand.2.2) ≤ budget s.1) ∧
     (∀ self' unc' ch,
        place_towers_body s.1 s.2 = Ok (Next self' unc' ch) →
        0 < choice_cost self ch ≤ budget s.1 ∧
        budget self' = budget s.1 - choice_cost self ch)).
Proof.
  intros Hwf Hcat Hbudget.
  pose proof (loop_start_inv self Hwf Hcat) as Hinv. split.
  - destruct (place_towers_runs self Hwf Hcat) as (final & unc' & log & Hrun & Hruns & _).
    destruct (runs_budget _ _ _ Hruns Hinv) as (_ & Heq & Hnonneg).
    cbn [fst snd loop_start] in *.
    exists final, log. split; [done|]. split; [|done].
    specialize (Hnonneg Hbudget). lia.
  - intros log s Hruns.
    destruct (runs_budget _ _ _ Hruns Hinv) as (Htypes & _ & Hnonneg).
    pose proof (runs_inv _ _ _ Hruns Hinv) as Hinv'.
    cbn [fst snd loop_start] in *.
    split; [by apply Hnonneg|]. split.
    + intros cand Hcand. by apply elem_of_candidates in Hcand as (_ & ? & _).
    + intros self' unc' ch Hbody. destruct s as [self1 unc1].
      destruct (iteration_inv _ _ _ _ _ Hinv' Hbody)
        as (x & y & t & p & -> & _ & Hlook & Hcost & _ & _ & _ & _ & _ & -> & _ & _).
      unfold choice_cost, tower_type_lookup in *. cbn [fst snd] in *.
      rewrite <- Htypes, Hlook. cbn. lia.
Qed.

Lemma spent_within_budget_witness :
  ∃ final log,
    place_towers city_3x5 = Some (Ok (final, log)) ∧
    spent city_3x5 log ≤ budget city_3x5 ∧
    budget final = budget city_3x5 - spent city_3x5 log.
Proof.
  apply (spent_within_budget city_3x5).
  - solve_wf_grid.
  - solve_wf_catalog.
  - cbn. lia.
Defined.

Lemma wf_default_catalog (self : CityGrid) :
  tower_types self = default_tower_types → wf_catalog self.
Proof.
  intros Heq. unfold wf_catalog. rewrite Heq. cbn.
  apply (bool_decide_unpack _). vm_compute. exact I.
Qed.

(** The two ways through one pass of the [while] statement, on a
    well-formed object: the loop is left, or the first candidate of greatest
    value is committed. *)
Lemma place_towers_body_cases (self : CityGrid) (unc : gset coord) :
  wf_grid self → wf_catalog self →
  (place_towers_body self unc = Ok Exit ∧
   (unc = ∅ ∨ budget self ≤ 0 ∨
    ∀ c, c ∈ candidates self → (value self unc c == 0)%Q)) ∨
  (∃ l1 c l2 self1,
     unc ≠ ∅ ∧ budget self > 0 ∧
     candidates self = l1 ++ c :: l2 ∧
     (0 < value self unc c)%Q ∧
     (∀ c', c' ∈ l1 → (value self unc c' < value self unc c)%Q) ∧
     (∀ c', c' ∈ l2 → (value self unc c' <= value self unc c)%Q) ∧
     place_tower self c.1.1 c.1.2 (range c.2.2) = Ok self1 ∧
     place_towers_body self unc =
       Ok (Next (set_budget self1 (budget self1 - Z.pos (cost c.2.2)))
                (unc ∖ calculate_coverage self c.1.1 c.1.2 (range c.2.2) unc)
                (choice_of c))).
Proof.
  intros Hwf Hcat. unfold place_towers_body.
  case_decide as Hcond.
  2:{ left. split; [done|].
      destruct (decide (unc = ∅)) as [|Hne]; [by left|].
      right. left. destruct (decide (budget self ≤ 0)); [done|].
      destruct Hcond. split; [done|lia]. }
  destruct Hcond as [Hne Hb].
  pose proof (scan_spec self unc) as Hscan.
  destruct (scan self unc).1 as [ch|].
  - right. destruct Hscan as (l1 & c & l2 & Hl & -> & Hpos & Hl1 & Hl2).
    assert (c ∈ candidates self) as Hc by (rewrite Hl; set_solver).
    apply elem_of_candidates in Hc as (Hitem & Hcost & Hin & Hcell).
    destruct c as [[x y] [t p]]. cbn [fst snd choice_of] in *.
    exists l1, (x, y, (t, p)), l2, (placed self x y (range p)).
    cbn [fst snd choice_of].
    rewrite (tower_type_lookup_elem self t p) by done. cbn.
    rewrite place_tower_in_bounds by done.
    rewrite decide_False by lia. cbn.
    repeat (split; [done|]). done.
  - left. split; [done|]. right. right. done.
Qed.

(** C2.  In every iteration on a well-formed object with the catalog of
    the source: the candidates are the pairs of a Free cell and an
    affordable tower type; when the loop condition holds and some candidate
    has a positive value [|coverage| / cost], the iteration commits a pair,
    and the pair it commits has a positive value that is strictly greater
    than the value of every candidate evaluated before it and at least the
    value of every candidate evaluated after it (tower types in catalog
    order, and for each type the cells in row-major order); to commit is to
    call [place_tower] at that cell with that range, to take the cost off
    the budget and the covered cells off the uncovered set; when every
    candidate has value 0, or the loop condition fails, nothing is
    committed and the loop ends; the iteration never raises. *)
Theorem greedy_choice_is_first_maximum (self : CityGrid) (unc : gset coord) :
  wf_grid self → tower_types self = default_tower_types →
  (∀ cand, cand ∈ candidates self ↔
     cand.2 ∈ tower_types self ∧ Z.pos (cost cand.2.2) ≤ budget self ∧
     in_bounds self cand.1 ∧ cell (grid self) cand.1.1 cand.1.2 = 0) ∧
  (∀ self' unc' ch,
     place_towers_body self unc = Ok (Next self' unc' ch) →
     ∃ l1 c l2 self1,
       candidates self = l1 ++ c :: l2 ∧ ch = choice_of c ∧
       (0 < value self unc c)%Q ∧
       (∀ c', c' ∈ l1 → (value self unc c' < value self unc c)%Q) ∧
       (∀ c', c' ∈ l2 → (value self unc c' <= value self unc c)%Q) ∧
       place_tower self c.1.1 c.1.2 (range c.2.2) = Ok self1 ∧
       self' = set_budget self1 (budget self - Z.pos (cost c.2.2)) ∧
       unc' = unc ∖ calculate_coverage self c.1.1 c.1.2 (range c.2.2) unc) ∧
  (unc ≠ ∅ → budget self > 0 →
   (∃ c, c ∈ candidates self ∧ (0 < value self unc c)%Q) →
   ∃ self' unc' ch, place_towers_body self unc = Ok (Next self' unc' ch)) ∧
  (place_towers_body self unc = Ok Exit ↔
   unc = ∅ ∨ budget self ≤ 0 ∨
   ∀ c, c ∈ candidates self → (value self unc c == 0)%Q) ∧
  (∀ e, place_towers_body self unc ≠ Raise e).
Proof.
  intros Hwf Hcat. apply wf_default_catalog in Hcat.
  split; [apply elem_of_candidates|].
  destruct (place_towers_body_cases self unc Hwf Hcat)
    as [[Hexit Hwhy]|(l1 & c & l2 & self1 & Hne & Hb & Hl & Hpos & Hl1 & Hl2 & Hplace & Hnext)].
  - rewrite Hexit. split; [done|]. split; [|split; [done|done]].
    intros Hne Hb (c & Hc & Hpos). exfalso.
    destruct Hwhy as [->|[Hle|Hzero]]; [done|lia|].
    rewrite (Hzero c Hc) in Hpos. by apply Qlt_irrefl in Hpos.
  - rewrite Hnext. split; [|split; [|split]].
    + intros self' unc' ch [= <- <- <-].
      exists l1, c, l2, self1. repeat (split; [done|]).
      split; [|done]. f_equal.
      rewrite place_tower_unfold in Hplace.
      destruct (getitem (grid self) c.1.1 c.1.2) as [v|]; [|done]. cbn in Hplace.
      case_decide; [done|]. by injection Hplace as <-.
    + intros _ _ _. eauto.
    + split; [done|]. intros [->|[Hle|Hzero]]; [done|lia|]. exfalso.
      assert (c ∈ candidates self) as Hc by (rewrite Hl; set_solver).
      rewrite (Hzero c Hc) in Hpos. by apply Qlt_irrefl in Hpos.
    + done.
Qed.

Lemma greedy_choice_is_first_maximum_witness :
  ∃ self' unc' ch,
    place_towers_body city_1x5 (initial_uncovered city_1x5)
      = Ok (Next self' unc' ch).
Proof.
  refine (proj1 (proj2 (proj2 (greedy_choice_is_first_maximum city_1x5
            (initial_uncovered city_1x5) _ _))) _ _ _).
  - solve_wf_grid.
  - reflexivity.
  - intros Hempty. assert ((0, 0) ∈ initial_uncovered city_1x5) as Hin.
    { apply initial_uncovered_is_free.
      split; [unfold in_bounds; cbn; lia|reflexivity]. }
    rewrite Hempty in Hin. by apply not_elem_of_empty in Hin.
  - cbn. lia.
  - exists ((0, 0), ("small"%string, {| range := 1; cost := 15 |})). split.
    + apply elem_of_candidates. unfold in_bounds. cbn.
      split; [by left|]. split; [lia|]. split; [lia|reflexivity].
    + vm_compute. reflexivity.
Defined.

(** C3 (amended).  In every iteration the cells the scan evaluates are
    exactly the Free cells of the grid (value 0), in row-major order, and
    this set is the uncovered set of that iteration: a cell within the
    range of a committed tower is no longer Free and is not evaluated as a
    placement candidate any more. *)
Theorem scanned_cells_are_the_uncovered_cells (self : CityGrid) :
  wf_grid self → wf_catalog self →
  ∀ log s, runs (loop_start self) log s →
    (∀ acc item,
       scan_type s.1 s.2 acc item =
       foldl (consider s.1 s.2) acc
         (if decide (budget s.1 < Z.pos (cost item.2)) then []
          else (λ c, (c, item)) <$> free_cells s.1)) ∧
    free_cells s.1 =
      filter (λ c, cell (grid s.1) c.1 c.2 = 0)
        (cells (py_range 0 (n s.1)) (py_range 0 (m s.1))) ∧
    (∀ c, c ∈ free_cells s.1 ↔ c ∈ s.2) ∧
    (∀ ch p c, ch ∈ log → tower_type_lookup self ch.2 = Ok p →
       in_bounds self c → chebyshev c (choice_coord ch) ≤ range p →
       c ∉ free_cells s.1).
Proof.
  intros Hwf Hcat log s Hruns.
  pose proof (loop_start_inv self Hwf Hcat) as Hinv.
  pose proof (runs_inv _ _ _ Hruns Hinv) as (_ & _ & Hfree).
  split; [intros; apply scan_type_candidates|].
  split; [apply free_cells_filter|]. split.
  - intros c. rewrite elem_of_free_cells. symmetry. apply Hfree.
  - intros ch p c Hch Hlook Hc Hdist Hin.
    apply elem_of_free_cells in Hin as [_ H0].
    by apply (runs_covered _ _ _ Hruns Hinv ch p c).
Qed.

Lemma scanned_cells_are_the_uncovered_cells_witness :
  (0, 3) ∈ free_cells city_1x5_after_one.1 ↔ (0, 3) ∈ city_1x5_after_one.2.
Proof.
  refine (proj1 (proj2 (proj2 (scanned_cells_are_the_uncovered_cells city_1x5
    _ _ [(0, 1, "small"%string)] city_1x5_after_one _))) (0, 3)).
  - solve_wf_grid.
  - solve_wf_catalog.
  - eapply runs_cons; [|apply runs_nil]. vm_compute. reflexivity.
Defined.

(** C3 as stated fails.  On the free 1 x 5 strip the first iteration
    commits a small tower at (0,1); the cell (0,0) is then covered by that
    tower's range and carries no tower, yet it is not among the cells the
    next scan evaluates, and the scanned cells are the uncovered set
    itself, not a strictly larger set. *)
Lemma covered_cell_not_scanned_counterexample :
  runs (loop_start city_1x5) [(0, 1, "small"%string)] city_1x5_after_one ∧
  cell (grid city_1x5_after_one.1) 0 0 = 1 ∧
  chebyshev (0, 0) (0, 1) ≤ 1 ∧
  ((0, 0) ∉ towers city_1x5_after_one.1) ∧
  ((0, 0) ∉ free_cells city_1x5_after_one.1) ∧
  ¬ (city_1x5_after_one.2 ⊂ list_to_set (free_cells city_1x5_after_one.1)).
Proof.
  split. { eapply runs_cons; [|apply runs_nil]. vm_compute. reflexivity. }
  split; [reflexivity|]. split; [vm_compute; discriminate|].
  split. { cbn. rewrite list_elem_of_singleton. discriminate. }
  split. { rewrite elem_of_free_cells. cbn. intros [_ H]. discriminate. }
  intros [_ Hnot]. apply Hnot. intros c Hc.
  apply elem_of_list_to_set, elem_of_free_cells in Hc as [[Hc1 Hc2] H0].
  destruct c as [i j]. cbn in *.
  assert (i = 0) as -> by lia.
  assert (j = 0 ∨ j = 1 ∨ j = 2 ∨ j = 3 ∨ j = 4) as Hj by lia.
  destruct Hj as [-> | [-> | [-> | [-> | ->]]]]; try discriminate; set_solver.
Qed.

(** C8.  [place_towers] finishes without raising, every placement it
    commits is on a cell inside the grid that was Free when the loop
    started and is Covered, hence not obstructed, at the end, and the loop
    body never raises: at every iteration [place_tower] accepts every
    candidate of the scan. *)
Theorem placements_avoid_obstructions (self : CityGrid) :
  wf_grid self → wf_catalog self →
  (∃ final log,
     place_towers self = Some (Ok (final, log)) ∧
     towers final = towers self ++ (choice_coord <$> log) ∧
     ∀ c, c ∈ choice_coord <$> log →
       in_bounds self c ∧ cell (grid self) c.1 c.2 = 0 ∧
       cell (grid final) c.1 c.2 ≠ -1) ∧
  (∀ log s, runs (loop_start self) log s →
     (∀ e, place_towers_body s.1 s.2 ≠ Raise e) ∧
     (∀ cand, cand ∈ candidates s.1 →
        ∃ self', place_tower s.1 cand.1.1 cand.1.2 (range cand.2.2) = Ok self')).
Proof.
  intros Hwf Hcat.
  pose proof (loop_start_inv self Hwf Hcat) as Hinv. split.
  - destruct (place_towers_runs self Hwf Hcat) as (final & unc' & log & Hrun & Hruns & _).
    exists final, log. split; [done|].
    split; [apply (runs_towers _ _ _ Hruns Hinv)|].
    destruct (runs_choices _ _ _ Hruns Hinv) as (_ & Hlog).
    intros c Hc. apply list_elem_of_fmap in Hc as (ch & -> & Hch).
    destruct (Hlog ch Hch) as (Hb & H0 & H1). cbn [fst snd loop_start] in *.
    split; [done|]. split; [done|]. rewrite H1. done.
  - intros log s Hruns.
    pose proof (runs_inv _ _ _ Hruns Hinv) as Hinv'. destruct s as [self1 unc1].
    cbn [fst snd]. split.
    + intros e He.
      destruct (place_towers_body_spec self1 unc1 Hinv')
        as [Hexit|(x & y & t & p & _ & _ & _ & _ & _ & _ & _ & _ & Hnext)]; congruence.
    + intros cand Hcand. apply elem_of_candidates in Hcand as (_ & _ & Hb & H0).
      destruct Hinv' as (Hwf' & _). cbn [fst] in Hwf'.
      rewrite place_tower_in_bounds; [|done|by destruct cand as [[??]?]].
      rewrite decide_False by lia. eauto.
Qed.

Lemma placements_avoid_obstructions_witness :
  ∃ final log,
    place_towers city_3x5 = Some (Ok (final, log)) ∧
    towers final = towers city_3x5 ++ (choice_coord <$> log) ∧
    ∀ c, c ∈ choice_coord <$> log →
      in_bounds city_3x5 c ∧ cell (grid city_3x5) c.1 c.2 = 0 ∧
      cell (grid final) c.1 c.2 ≠ -1.
Proof.
  apply (placements_avoid_obstructions city_3x5).
  - solve_wf_grid.
  - solve_wf_catalog.
Defined.

(** C10.  After [place_towers] the coordinates it appended to [towers] are
    pairwise distinct (so is the whole list when it started empty): at
    every iteration the cells that already carry a committed tower hold the
    value 1, and every candidate cell holds the value 0. *)
Theorem placements_pairwise_distinct (self : CityGrid) :
  wf_grid self → wf_catalog self →
  (∃ final log,
     place_towers self = Some (Ok (final, log)) ∧
     towers final = towers self ++ (choice_coord <$> log) ∧
     NoDup (choice_coord <$> log) ∧
     (towers self = [] → NoDup (towers final))) ∧
  (∀ log s, runs (loop_start self) log s →
     (∀ c, c ∈ choice_coord <$> log → cell (grid s.1) c.1 c.2 = 1) ∧
     (∀ cand, cand ∈ candidates s.1 → cell (grid s.1) cand.1.1 cand.1.2 = 0)).
Proof.
  intros Hwf Hcat.
  pose proof (loop_start_inv self Hwf Hcat) as Hinv. split.
  - destruct (place_towers_runs self Hwf Hcat) as (final & unc' & log & Hrun & Hruns & _).
    exists final, log. split; [done|].
    pose proof (runs_towers _ _ _ Hruns Hinv) as Htowers.
    destruct (runs_choices _ _ _ Hruns Hinv) as (Hnd & _).
    cbn [fst snd loop_start] in *.
    split; [done|]. split; [done|]. intros Hnil. by rewrite Htowers, Hnil.
  - intros log s Hruns. split.
    + destruct (runs_choices _ _ _ Hruns Hinv) as (_ & Hlog).
      intros c Hc. apply list_elem_of_fmap in Hc as (ch & -> & Hch).
      by destruct (Hlog ch Hch) as (_ & _ & H1).
    + intros cand Hcand. by apply elem_of_candidates in Hcand as (_ & _ & _ & H0).
Qed.

Lemma placements_pairwise_distinct_witness :
  ∃ final log,
    place_towers city_3x5 = Some (Ok (final, log)) ∧
    towers final = towers city_3x5 ++ (choice_coord <$> log) ∧
    NoDup (choice_coord <$> log) ∧
    (towers city_3x5 = [] → NoDup (towers final)).
Proof.
  apply (placements_pairwise_distinct city_3x5).
  - solve_wf_grid.
  - solve_wf_catalog.
Defined.

(** ** The adjacency dict of [find_shortest_path] *)

Lemma is_within_range_chebyshev (u v : coord) (r : Z) :
  is_within_range u v r = true ↔ chebyshev u v ≤ r.
Proof.
  unfold is_within_range, chebyshev.
  rewrite andb_true_iff, !bool_decide_eq_true. lia.
Qed.

Lemma chebyshev_sym (u v : coord) : chebyshev u v = chebyshev v u.
Proof. unfold chebyshev. lia. Qed.

Lemma edge_graph_append (g : gmap coord (list coord)) (k v a b : coord) :
  k ∈ dom g →
  edge (graph_append g k v) a b ↔ edge g a b ∨ (a = k ∧ b = v).
Proof.
  intros Hk. apply elem_of_dom in Hk as [l0 Hl0].
  unfold edge, graph_append. rewrite lookup_alter. case_decide as Hka.
  - subst a. rewrite Hl0. cbn. split.
    + intros (l & [= <-] & Hb). apply elem_of_app in Hb as [Hb|Hb].
      * left. eauto.
      * right. apply list_elem_of_singleton in Hb. done.
    + intros [(l & [= <-] & Hb)|[_ ->]].
      * exists (l0 ++ [v]). split; [done|]. apply elem_of_app. by left.
      * exists (l0 ++ [v]). split; [done|]. apply elem_of_app. right. by left.
  - split; [by left|]. intros [H|[-> _]]; [done|]. by destruct Hka.
Qed.

Lemma dom_connect (r : Z) (t1 t2 : coord) (g : gmap coord (list coord)) :
  dom (connect r t1 g t2) = dom g.
Proof.
  unfold connect, graph_append. destruct (is_within_range t1 t2 r); [|done].
  by rewrite !dom_alter_L.
Qed.

Lemma edge_connect (r : Z) (t1 t2 : coord) (g : gmap coord (list coord)) (a b : coord) :
  t1 ∈ dom g → t2 ∈ dom g →
  edge (connect r t1 g t2) a b ↔
  edge g a b ∨
  (chebyshev t1 t2 ≤ r ∧ ((a = t1 ∧ b = t2) ∨ (a = t2 ∧ b = t1))).
Proof.
  intros H1 H2. unfold connect. rewrite <- is_within_range_chebyshev.
  destruct (is_within_range t1 t2 r).
  - rewrite !edge_graph_append; [tauto|done|].
    unfold graph_append. by rewrite dom_alter_L.
  - split; [by left|]. intros [H|[[=] _]]. done.
Qed.

Lemma foldl_connect_spec (r : Z) (t1 : coord) (rest : list coord)
    (g : gmap coord (list coord)) :
  t1 ∈ dom g → (∀ t, t ∈ rest → t ∈ dom g) →
  dom (foldl (connect r t1) g rest) = dom g ∧
  ∀ a b, edge (foldl (connect r t1) g rest) a b ↔
    edge g a b ∨
    ∃ t2, t2 ∈ rest ∧ chebyshev t1 t2 ≤ r ∧
      ((a = t1 ∧ b = t2) ∨ (a = t2 ∧ b = t1)).
Proof.
  revert g. induction rest as [|t rest IH]; intros g H1 Hrest.
  { split; [done|]. intros a b. split; [by left|].
    intros [H|(t2 & Ht2 & _)]; [done|]. by apply elem_of_nil in Ht2. }
  cbn [foldl].
  destruct (IH (connect r t1 g t)) as [Hdom Hedge].
  { by rewrite dom_connect. }
  { intros t' Ht'. rewrite dom_connect. apply Hrest. by right. }
  split; [by rewrite Hdom, dom_connect|].
  intros a b. rewrite Hedge, edge_connect; [|done|apply Hrest; by left].
  split.
  - intros [[H|H]|(t2 & Ht2 & H)]; [by left| |].
    + right. exists t. split; [by left|done].
    + right. exists t2. split; [by right|done].
  - intros [H|(t2 & Ht2 & H)]; [by left; left|].
    apply elem_of_cons in Ht2 as [->|Ht2]; [by left; right|].
    right. by exists t2.
Qed.

Lemma earlier_cons (t : coord) (l : list coord) (t1 t2 : coord) :
  earlier (t :: l) t1 t2 ↔ (t1 = t ∧ t2 ∈ l) ∨ earlier l t1 t2.
Proof.
  unfold earlier. split.
  - intros (l1 & l2 & Heq & Hin). destruct l1 as [|t' l1]; cbn in Heq.
    + injection Heq as <- <-. by left.
    + injection Heq as <- ->. right. by exists l1, l2.
  - intros [[-> Hin]|(l1 & l2 & -> & Hin)].
    + by exists [], l.
    + by exists (t :: l1), l2.
Qed.

Lemma earlier_total (l : list coord) (u v : coord) :
  u ∈ l → v ∈ l → u ≠ v → earlier l u v ∨ earlier l v u.
Proof.
  induction l as [|t l IH]; intros Hu Hv Hne.
  { by apply elem_of_nil in Hu. }
  rewrite !earlier_cons.
  apply elem_of_cons in Hu as [->|Hu]; apply elem_of_cons in Hv as [->|Hv].
  - done.
  - left. by left.
  - right. by left.
  - destruct (IH Hu Hv Hne); [left|right]; by right.
Qed.

Lemma earlier_elem_of (l : list coord) (u v : coord) :
  earlier l u v → u ∈ l ∧ v ∈ l.
Proof. intros (l1 & l2 & -> & Hv). set_solver. Qed.

(** The pair loop of lines 112-116, started in the middle of the list. *)
Lemma pair_loop_spec (r : Z) (towers : list coord) (suf pre : list coord)
    (g : gmap coord (list coord)) :
  towers = pre ++ suf → (∀ t, t ∈ towers → t ∈ dom g) →
  let g' :=
    foldl (λ graph '(i, tower1),
             foldl (connect r tower1) graph (drop (S i) towers))
      g (imap (λ i t, (length pre + i, t)%nat) suf) in
  dom g' = dom g ∧
  ∀ a b, edge g' a b ↔
    edge g a b ∨
    ∃ t1 t2, earlier suf t1 t2 ∧ chebyshev t1 t2 ≤ r ∧
      ((a = t1 ∧ b = t2) ∨ (a = t2 ∧ b = t1)).
Proof.
  revert pre g. induction suf as [|t suf IH]; intros pre g Heq Hdom; cbn zeta.
  { split; [done|]. intros a b. split; [by left|].
    intros [H|(t1 & t2 & (l1 & l2 & Hnil & _) & _)]; [done|].
    by destruct l1. }
  rewrite imap_cons. cbn [foldl].
  assert (drop (S (length pre + 0)) towers = suf) as ->.
  { rewrite Heq, Nat.add_0_r.
    change (t :: suf) with ([t] ++ suf). rewrite app_assoc.
    rewrite drop_app_length'; [done|]. rewrite length_app. cbn. lia. }
  destruct (foldl_connect_spec r t suf g) as [Hdom1 Hedge1].
  { apply Hdom. rewrite Heq. set_solver. }
  { intros t' Ht'. apply Hdom. rewrite Heq. set_solver. }
  destruct (IH (pre ++ [t]) (foldl (connect r t) g suf)) as [Hdom2 Hedge2].
  { by rewrite <- app_assoc. }
  { intros t' Ht'. rewrite Hdom1. by apply Hdom. }
  cbn zeta in Hdom2, Hedge2.
  rewrite (imap_ext _ ((λ i t0, (length pre + i, t0)%nat) ∘ S)) in Hdom2, Hedge2.
  2,3: (intros i x _; cbn; rewrite length_app; cbn; f_equal; lia).
  split; [by rewrite Hdom2|].
  intros a b. rewrite Hedge2, Hedge1. setoid_rewrite earlier_cons.
  split.
  - intros [[H|(t2 & Ht2 & H)]|(t1 & t2 & H & H')]; [by left| |].
    + right. exists t, t2. split; [by left|done].
    + right. exists t1, t2. split; [by right|done].
  - intros [H|(t1 & t2 & [[-> H]|H] & H')]; [by left; left| |].
    + left. right. by exists t2.
    + right. by exists t1, t2.
Qed.

Lemma dom_empty_lists (towers : list coord) (g : gmap coord (list coord)) :
  dom (foldl (λ graph tower, <[tower := []]> graph) g towers) =
    list_to_set towers ∪ dom g ∧
  ∀ a b, edge (foldl (λ graph tower, <[tower := []]> graph) g towers) a b →
    edge g a b.
Proof.
  revert g. induction towers as [|t towers IH]; intros g; cbn [foldl].
  { split; [set_solver|done]. }
  destruct (IH (<[t := []]> g)) as [Hdom Hedge].
  split; [rewrite Hdom, dom_insert_L; set_solver|].
  intros a b H. apply Hedge in H as (l & Hl & Hb).
  destruct (decide (t = a)) as [->|Hne].
  - rewrite lookup_insert_eq in Hl. injection Hl as <-. by apply elem_of_nil in Hb.
  - rewrite lookup_insert_ne in Hl by done. by exists l.
Qed.

(** The dict built by [find_shortest_path]: its keys are the towers, and
    the adjacency lists hold exactly the pairs of towers at two positions
    of the list that are within range of each other. *)
Lemma build_graph_spec (towers : list coord) (r : Z) :
  dom (build_graph towers r) = list_to_set towers ∧
  ∀ a b, edge (build_graph towers r) a b ↔
    ∃ t1 t2, earlier towers t1 t2 ∧ chebyshev t1 t2 ≤ r ∧
      ((a = t1 ∧ b = t2) ∨ (a = t2 ∧ b = t1)).
Proof.
  unfold build_graph.
  destruct (dom_empty_lists towers ∅) as [Hdom0 Hedge0].
  rewrite dom_empty_L, union_empty_r_L in Hdom0.
  destruct (pair_loop_spec r towers towers []
              (foldl (λ graph tower, <[tower := []]> graph) ∅ towers))
    as [Hdom Hedge].
  { done. }
  { intros t Ht. rewrite Hdom0. by apply elem_of_list_to_set. }
  cbn zeta in Hdom, Hedge.
  change (imap pair towers) with (imap (λ i t, (length (@nil coord) + i, t)%nat) towers).
  split; [by rewrite Hdom|].
  intros a b. rewrite Hedge. split; [|by right].
  intros [H|H]; [|done]. apply Hedge0 in H as (l & Hl & _).
  by rewrite lookup_empty in Hl.
Qed.

Lemma build_graph_edge_adjacent (towers : list coord) (r : Z) (a b : coord) :
  edge (build_graph towers r) a b → adjacent towers r a b.
Proof.
  intros H. apply build_graph_spec in H as (t1 & t2 & He & Hd & H).
  apply earlier_elem_of in He as [H1 H2]. unfold adjacent.
  destruct H as [[-> ->]|[-> ->]]; [done|]. by rewrite chebyshev_sym.
Qed.

Lemma build_graph_adjacent_edge (towers : list coord) (r : Z) (a b : coord) :
  adjacent towers r a b → a ≠ b → edge (build_graph towers r) a b.
Proof.
  intros (Ha & Hb & Hd) Hne. apply build_graph_spec.
  destruct (earlier_total towers a b Ha Hb Hne) as [He|He].
  - exists a, b. split; [done|]. split; [done|]. by left.
  - exists b, a. split; [done|]. rewrite chebyshev_sym. split; [done|]. by right.
Qed.

Lemma build_graph_closed (towers : list coord) (r : Z) (a b : coord) :
  edge (build_graph towers r) a b → b ∈ dom (build_graph towers r).
Proof.
  intros H. apply build_graph_edge_adjacent in H as (_ & Hb & _).
  destruct (build_graph_spec towers r) as [-> _]. by apply elem_of_list_to_set.
Qed.

(** ** Paths *)

Section walks.
Context (E : coord → coord → Prop).

Lemma walk_head (s e : coord) (p : list coord) :
  walk E s p e → ∃ tl, p = s :: tl.
Proof. destruct 1; eauto. Qed.

Lemma walk_snoc (s u v : coord) (p : list coord) :
  walk E s p u → E u v → walk E s (p ++ [v]) v.
Proof.
  induction 1 as [u|s v' p u HE _ IH]; intros Huv; cbn.
  - apply walk_cons with v; [done|]. constructor.
  - apply walk_cons with v'; [done|]. by apply IH.
Qed.

Lemma walk_suffix (s e u : coord) (pre suf : list coord) :
  walk E s (pre ++ u :: suf) e → walk E u (u :: suf) e.
Proof.
  revert s. induction pre as [|a pre IH]; intros s H; cbn in H.
  - destruct (walk_head _ _ _ H) as (tl & [= -> ->]). done.
  - inversion H as [|? v p ? HE Hw]; subst.
    + by destruct pre.
    + by apply (IH v).
Qed.

Lemma walk_singleton (u e : coord) : walk E u [u] e → u = e.
Proof. inversion 1 as [|? v p ? HE Hw]; subst; [done|]. inversion Hw. Qed.

Lemma walk_step (u v e : coord) (suf : list coord) :
  walk E u (u :: v :: suf) e → E u v.
Proof.
  inversion 1 as [|? v' p ? HE Hw]; subst.
  by destruct (walk_head _ _ _ Hw) as (tl & [= <- _]).
Qed.

Lemma walk_ends (s e : coord) (p : list coord) :
  walk E s p e → head p = Some s ∧ last p = Some e.
Proof.
  induction 1 as [u|s v p e HE Hw [_ IH]]; [done|]. split; [done|].
  destruct (walk_head _ _ _ Hw) as (tl & ->). done.
Qed.

Lemma walk_consecutive (s e : coord) (p : list coord) :
  walk E s p e →
  ∀ i u v, p !! i = Some u → p !! S i = Some v → E u v.
Proof.
  induction 1 as [u|s v p e HE Hw IH]; intros i a b Ha Hb.
  - by destruct i.
  - destruct i as [|i]; cbn in Ha, Hb.
    + injection Ha as <-.
      destruct (walk_head _ _ _ Hw) as (tl & ->). cbn in Hb. by injection Hb as <-.
    + by apply (IH i).
Qed.

Lemma walk_impl (E' : coord → coord → Prop) (s e : coord) (p : list coord) :
  (∀ u v, E u v → E' u v) → walk E s p e → walk E' s p e.
Proof.
  intros HEE'. induction 1 as [u|s v p e HE _ IH]; [constructor|].
  apply walk_cons with v; [by apply HEE'|done].
Qed.
End walks.

Lemma split_last_such (P : coord → Prop) `{!∀ x, Decision (P x)} (l : list coord) :
  (∀ x, x ∈ l → ¬ P x) ∨
  (∃ l1 x l2, l = l1 ++ x :: l2 ∧ P x ∧ ∀ y, y ∈ l2 → ¬ P y).
Proof.
  induction l as [|a l IH].
  { left. intros x Hx. by apply elem_of_nil in Hx. }
  destruct IH as [Hnone|(l1 & x & l2 & -> & Hx & Hl2)].
  - destruct (decide (P a)) as [Ha|Ha].
    + right. by exists [], a, l.
    + left. intros x Hx. apply elem_of_cons in Hx as [->|Hx]; [done|by apply Hnone].
  - right. by exists (a :: l1), x, l2.
Qed.

(** ** The search loop *)

Lemma layered_same (d : nat) (new : list (coord * list coord)) :
  Forall (λ e, length e.2 = d) new → layered new.
Proof.
  induction 1 as [|e new He Hnew IH]; [done|]. split; [|done].
  eapply Forall_impl; [exact Hnew|]. intros e' He'. cbn in *. lia.
Qed.

Lemma layered_app (d : nat) (q new : list (coord * list coord)) :
  layered q →
  Forall (λ e, d ≤ length e.2 ≤ S d)%nat q →
  Forall (λ e, length e.2 = S d) new →
  layered (q ++ new).
Proof.
  intros Hq Hbound Hnew. induction q as [|e q IH]; cbn [app].
  { by eapply layered_same. }
  destruct Hq as [Hrest Hq]. apply Forall_cons in Hbound as [He Hbound].
  split; [|by apply IH]. apply Forall_app. split; [done|].
  eapply Forall_impl; [exact Hnew|]. intros e' He'. cbn in *. lia.
Qed.

Lemma size_difference_visit (a : coord) (D visited : gset coord) :
  a ∉ visited → a ∈ D →
  size (D ∖ visited) = S (size (D ∖ ({[a]} ∪ visited))).
Proof.
  intros Ha HD.
  assert (D ∖ visited = {[a]} ∪ D ∖ ({[a]} ∪ visited)) as ->.
  { apply set_eq. intros w. destruct (decide (w = a)) as [->|?]; set_solver. }
  rewrite size_union.
  - rewrite size_singleton. lia.
  - set_solver.
Qed.

(** What the [for] loop over the neighbours does to [visited] and to the
    queue. *)
Lemma foldl_visit_spec (path : list coord) (nbrs : list coord)
    (visited : gset coord) (queue : list (coord * list coord)) :
  ∃ new,
    (foldl (visit path) (visited, queue) nbrs).2 = queue ++ new ∧
    (∀ w, w ∈ (foldl (visit path) (visited, queue) nbrs).1 ↔
          w ∈ visited ∨ w ∈ nbrs) ∧
    (∀ e, e ∈ new → ∃ w, w ∈ nbrs ∧ (w ∉ visited) ∧ e = (w, path ++ [w])) ∧
    (∀ w, w ∈ nbrs → w ∉ visited → (w, path ++ [w]) ∈ new) ∧
    (∀ D : gset coord, (∀ w, w ∈ nbrs → w ∈ D) →
       size (D ∖ (foldl (visit path) (visited, queue) nbrs).1) + length new =
       size (D ∖ visited))%nat.
Proof.
  revert visited queue. induction nbrs as [|a nbrs IH]; intros visited queue.
  { exists []. cbn. rewrite app_nil_r. split; [done|]. split; [set_solver|].
    split; [set_solver|]. split; [set_solver|]. intros. lia. }
  cbn [foldl]. unfold visit at 2 4 6. cbn [fst snd].
  destruct (decide (a ∈ visited)) as [Ha|Ha].
  - destruct (IH visited queue) as (new & Hq & Hv & Hnew1 & Hnew2 & Hsize).
    exists new. split; [done|]. split; [intros w; rewrite Hv; set_solver|].
    split. { intros e He. destruct (Hnew1 e He) as (w & ? & ? & ?). exists w. set_solver. }
    split. { intros w Hw Hnv. apply Hnew2; [|done]. set_solver. }
    intros D HD. apply Hsize. intros w Hw. apply HD. by right.
  - destruct (IH ({[a]} ∪ visited) (queue ++ [(a, path ++ [a])]))
      as (new & Hq & Hv & Hnew1 & Hnew2 & Hsize).
    exists ((a, path ++ [a]) :: new). split; [by rewrite Hq, <- app_assoc|].
    split; [intros w; rewrite Hv; set_solver|].
    split.
    { intros e He. apply elem_of_cons in He as [->|He].
      - exists a. set_solver.
      - destruct (Hnew1 e He) as (w & ? & ? & ?). exists w. set_solver. }
    split.
    { intros w Hw Hnv. destruct (decide (w = a)) as [->|Hne]; [by left|].
      right. apply Hnew2; set_solver. }
    intros D HD. cbn [length].
    specialize (Hsize D). rewrite Nat.add_succ_r, Hsize by (intros w Hw; apply HD; by right).
    symmetry. apply size_difference_visit; [done|]. apply HD. by left.
Qed.

Section search.
Context (graph : gmap coord (list coord)) (start end_ : coord).

Lemma bfs_inv_init : bfs_inv graph start end_ ∅ [(start, [start])].
Proof.
  split.
  - intros u p Hin. apply list_elem_of_singleton in Hin as [= -> ->]. constructor.
  - cbn. split; [constructor|done].
  - intros ws Hws. destruct (walk_head _ _ _ _ Hws) as (tl & ->).
    exists [], start, [start], tl. split; [done|]. split; [by left|].
    split; [cbn; lia|]. set_solver.
Qed.

Lemma layered_front (c : coord) (p : list coord)
    (queue : list (coord * list coord)) (e : coord * list coord) :
  layered ((c, p) :: queue) → e ∈ (c, p) :: queue →
  (length p ≤ length e.2 ≤ S (length p))%nat.
Proof.
  intros [Hrest _] He. apply elem_of_cons in He as [->|He]; [cbn; lia|].
  rewrite Forall_forall in Hrest. by apply Hrest.
Qed.

(** The path at the front of the queue is at most as long as any path
    from [start] to [end_]. *)
Lemma bfs_inv_front_shortest (visited : gset coord) (c : coord)
    (p : list coord) (queue : list (coord * list coord)) (ws : list coord) :
  bfs_inv graph start end_ visited ((c, p) :: queue) →
  walk (edge graph) start ws end_ →
  (length p ≤ length ws)%nat.
Proof.
  intros [_ Hlay Hint] Hws.
  destruct (Hint ws Hws) as (pre & u & pu & suf & -> & Hin & Hlen & _).
  pose proof (layered_front c p queue (u, pu) Hlay Hin) as Hf. cbn in Hf.
  rewrite length_app. cbn. lia.
Qed.

(** One iteration that does not return keeps the invariant. *)
Lemma bfs_inv_continue (visited : gset coord) (c : coord) (p : list coord)
    (queue : list (coord * list coord)) (nbrs : list coord) :
  bfs_inv graph start end_ visited ((c, p) :: queue) →
  c ≠ end_ → graph !! c = Some nbrs →
  bfs_inv graph start end_
    (foldl (visit p) (visited, queue) nbrs).1
    (foldl (visit p) (visited, queue) nbrs).2.
Proof.
  intros [Hpaths Hlay Hint] Hne Hnbrs.
  destruct (foldl_visit_spec p nbrs visited queue)
    as (new & -> & Hv & Hnew1 & Hnew2 & _).
  split.
  - intros u pu Hin. apply elem_of_app in Hin as [Hin|Hin].
    + apply Hpaths. by right.
    + destruct (Hnew1 _ Hin) as (w & Hw & _ & [= -> ->]).
      eapply walk_snoc; [apply Hpaths; by left|]. by exists nbrs.
  - apply (layered_app (length p)).
    + apply Hlay.
    + apply Hlay.
    + apply Forall_forall. intros e He.
      destruct (Hnew1 _ He) as (w & _ & _ & ->). cbn. rewrite length_app. cbn. lia.
  - intros ws Hws.
    destruct (Hint ws Hws) as (pre & u & pu & suf & -> & Hin & Hlen & Hsuf).
    pose proof (layered_front c p queue (u, pu) Hlay Hin) as Hf. cbn in Hf.
    destruct (split_last_such
                (λ w, w ∈ (foldl (visit p) (visited, queue) nbrs).1) suf)
      as [Hnone|(s1 & w & s2 & -> & Hw & Hs2)].
    + exists pre, u, pu, suf. split; [done|]. split; [|done].
      apply elem_of_cons in Hin as [[= -> ->]|Hin].
      * exfalso. apply walk_suffix in Hws.
        destruct suf as [|v suf].
        { by apply walk_singleton in Hws. }
        apply walk_step in Hws as (l & Hl & Hvl).
        rewrite Hnbrs in Hl. injection Hl as <-.
        apply (Hnone v); [by left|]. apply Hv. by right.
      * apply elem_of_app. by left.
    + exists (pre ++ u :: s1), w, (p ++ [w]), s2.
      split; [by rewrite <- app_assoc|].
      assert (w ∉ visited) as Hwv by (apply Hsuf; set_solver).
      split.
      { apply elem_of_app. right. apply Hnew2; [|done].
        apply Hv in Hw as [Hw|Hw]; done. }
      split; [|done].
      rewrite !length_app. cbn. lia.
Qed.

(** Soundness and optimality of the loop. *)
Lemma breadth_first_loop_sound (fuel : nat) (visited : gset coord)
    (queue : list (coord * list coord)) (path : list coord) :
  bfs_inv graph start end_ visited queue →
  breadth_first_loop fuel graph end_ visited queue = Some (Ok (Some path)) →
  walk (edge graph) start path end_ ∧
  ∀ ws, walk (edge graph) start ws end_ → (length path ≤ length ws)%nat.
Proof.
  revert visited queue. induction fuel as [|fuel IH]; intros visited queue Hinv Hloop.
  { done. }
  cbn [breadth_first_loop] in Hloop. unfold bfs_step in Hloop.
  destruct queue as [|[c p] queue]; [done|].
  destruct (decide (c = end_)) as [->|Hne].
  - injection Hloop as <-. split.
    + apply (inv_paths _ _ _ _ _ Hinv). by left.
    + intros ws Hws. by eapply bfs_inv_front_shortest.
  - destruct (graph !! c) as [nbrs|] eqn:Hnbrs; [|done].
    eapply IH; [|exact Hloop]. by apply (bfs_inv_continue visited c p queue nbrs).
Qed.

(** The loop gives up only when no path leads from [start] to [end_]. *)
Lemma breadth_first_loop_complete (fuel : nat) (visited : gset coord)
    (queue : list (coord * list coord)) :
  bfs_inv graph start end_ visited queue →
  breadth_first_loop fuel graph end_ visited queue = Some (Ok None) →
  ∀ ws, ¬ walk (edge graph) start ws end_.
Proof.
  revert visited queue. induction fuel as [|fuel IH]; intros visited queue Hinv Hloop.
  { done. }
  cbn [breadth_first_loop] in Hloop. unfold bfs_step in Hloop.
  destruct queue as [|[c p] queue].
  - intros ws Hws.
    destruct (inv_intercept _ _ _ _ _ Hinv ws Hws) as (? & ? & ? & ? & _ & Hin & _).
    by apply elem_of_nil in Hin.
  - destruct (decide (c = end_)) as [->|Hne]; [done|].
    destruct (graph !! c) as [nbrs|] eqn:Hnbrs; [|done].
    eapply IH; [|exact Hloop]. by apply (bfs_inv_continue visited c p queue nbrs).
Qed.

(** With every neighbour a key of the dict, no lookup fails once the
    nodes of the queue are keys. *)
Lemma breadth_first_loop_no_error (fuel : nat) (visited : gset coord)
    (queue : list (coord * list coord)) (e : exn) :
  closed_graph graph →
  (∀ u p, (u, p) ∈ queue → u ∈ dom graph) →
  breadth_first_loop fuel graph end_ visited queue ≠ Some (Raise e).
Proof.
  intros Hclosed. revert visited queue.
  induction fuel as [|fuel IH]; intros visited queue Hq; [done|].
  cbn [breadth_first_loop]. unfold bfs_step.
  destruct queue as [|[c p] queue]; [done|].
  destruct (decide (c = end_)) as [->|Hne]; [done|].
  destruct (graph !! c) as [nbrs|] eqn:Hnbrs.
  - apply IH. intros u pu Hin.
    destruct (foldl_visit_spec p nbrs visited queue)
      as (new & Heq & _ & Hnew1 & _).
    rewrite Heq in Hin. apply elem_of_app in Hin as [Hin|Hin].
    + apply (Hq u pu). by right.
    + destruct (Hnew1 _ Hin) as (w & Hw & _ & [= -> ->]).
      apply (Hclosed c). by exists nbrs.
  - exfalso. assert (c ∈ dom graph) as Hc by (apply (Hq c p); by left).
    apply elem_of_dom in Hc as [l Hl]. congruence.
Qed.

(** The loop finishes: every iteration removes one queue entry, and adds
    one for each node it takes out of the unvisited keys. *)
Lemma breadth_first_loop_terminates (fuel : nat) (visited : gset coord)
    (queue : list (coord * list coord)) :
  closed_graph graph →
  (size (dom graph ∖ visited) + length queue < fuel)%nat →
  breadth_first_loop fuel graph end_ visited queue ≠ None.
Proof.
  intros Hclosed. revert visited queue.
  induction fuel as [|fuel IH]; intros visited queue Hfuel; [lia|].
  cbn [breadth_first_loop]. unfold bfs_step.
  destruct queue as [|[c p] queue]; [done|].
  destruct (decide (c = end_)) as [->|Hne]; [done|].
  destruct (graph !! c) as [nbrs|] eqn:Hnbrs; [|done].
  apply IH.
  destruct (foldl_visit_spec p nbrs visited queue)
    as (new & -> & _ & _ & _ & Hsize).
  assert (∀ w, w ∈ nbrs → w ∈ dom graph) as Hdom.
  { intros w Hw. apply (Hclosed c). by exists nbrs. }
  specialize (Hsize (dom graph) Hdom). rewrite length_app.
  cbn [length] in Hfuel. lia.
Qed.
End search.

(** ** [find_shortest_path] *)

Lemma size_list_to_set_le (l : list coord) :
  (size (list_to_set l : gset coord) ≤ length l)%nat.
Proof.
  induction l as [|a l IH]; cbn [list_to_set length].
  { by rewrite size_empty. }
  rewrite size_union_alt, size_singleton.
  pose proof (subseteq_size (list_to_set l ∖ {[a]}) (list_to_set l : gset coord)) as H.
  assert (list_to_set l ∖ {[a]} ⊆ (list_to_set l : gset coord)) as Hsub by set_solver.
  specialize (H Hsub). lia.
Qed.

Lemma build_graph_closed_graph (towers : list coord) (r : Z) :
  closed_graph (build_graph towers r).
Proof. intros a b. apply build_graph_closed. Qed.

(** The fuel of [find_shortest_path] is enough: the search always comes to
    an end. *)
Lemma find_shortest_path_terminates (self : CityGrid) (start end_ : coord) (r : Z) :
  find_shortest_path self start end_ r ≠ None.
Proof.
  unfold find_shortest_path, breadth_first.
  apply breadth_first_loop_terminates; [apply build_graph_closed_graph|].
  destruct (build_graph_spec (towers self) r) as [-> _].
  rewrite difference_empty_L. cbn [length].
  pose proof (size_list_to_set_le (towers self)). lia.
Qed.

(** A path of the adjacency graph is matched by a path of the dict that is
    not longer: only steps from a tower to itself have no edge there. *)
Lemma adjacent_walk_edge_walk (towers : list coord) (r : Z)
    (s e : coord) (ws : list coord) :
  walk (adjacent towers r) s ws e →
  ∃ ws', walk (edge (build_graph towers r)) s ws' e ∧
         (length ws' ≤ length ws)%nat.
Proof.
  induction 1 as [u|u v p w Hadj _ (p' & Hp' & Hlen)].
  { exists [u]. split; [constructor|done]. }
  destruct (decide (u = v)) as [->|Hne].
  - exists p'. split; [done|]. cbn. lia.
  - exists (u :: p'). split; [|cbn; lia].
    apply walk_cons with v; [|done]. by apply build_graph_adjacent_edge.
Qed.

Lemma find_shortest_path_sound (self : CityGrid) (start end_ : coord) (r : Z)
    (path : list coord) :
  find_shortest_path self start end_ r = Some (Ok (Some path)) →
  walk (adjacent (towers self) r) start path end_ ∧
  ∀ ws, walk (adjacent (towers self) r) start ws end_ →
        (length path ≤ length ws)%nat.
Proof.
  intros Hres. unfold find_shortest_path, breadth_first in Hres.
  apply (breadth_first_loop_sound _ start) in Hres as [Hwalk Hmin];
    [|apply bfs_inv_init].
  split.
  - eapply walk_impl; [|exact Hwalk]. apply build_graph_edge_adjacent.
  - intros ws Hws.
    destruct (adjacent_walk_edge_walk _ _ _ _ _ Hws) as (ws' & Hws' & Hlen).
    specialize (Hmin ws' Hws'). lia.
Qed.

Lemma find_shortest_path_not_found (self : CityGrid) (start end_ : coord) (r : Z) :
  start ∈ towers self →
  (∀ ws, ¬ walk (adjacent (towers self) r) start ws end_) →
  find_shortest_path self start end_ r = Some (Ok None).
Proof.
  intros Hstart Hunreach.
  destruct (find_shortest_path self start end_ r) as [[[path|]|e]|] eqn:Hres.
  - apply find_shortest_path_sound in Hres as [Hwalk _]. by destruct (Hunreach path).
  - done.
  - exfalso. unfold find_shortest_path, breadth_first in Hres.
    revert Hres. apply breadth_first_loop_no_error.
    + apply build_graph_closed_graph.
    + intros u p Hin. apply list_elem_of_singleton in Hin as [= -> ->].
      destruct (build_graph_spec (towers self) r) as [-> _].
      by apply elem_of_list_to_set.
  - by destruct (find_shortest_path_terminates self start end_ r).
Qed.

Lemma find_shortest_path_complete (self : CityGrid) (start end_ : coord) (r : Z) :
  find_shortest_path self start end_ r = Some (Ok None) →
  ∀ ws, ¬ walk (adjacent (towers self) r) start ws end_.
Proof.
  intros Hres ws Hws. unfold find_shortest_path, breadth_first in Hres.
  destruct (adjacent_walk_edge_walk _ _ _ _ _ Hws) as (ws' & Hws' & _).
  revert ws' Hws'. eapply breadth_first_loop_complete; [|exact Hres].
  apply bfs_inv_init.
Qed.

Lemma adjacent_walk_end_tower (towers : list coord) (r : Z)
    (s e : coord) (ws : list coord) :
  walk (adjacent towers r) s ws e → s = e ∨ e ∈ towers.
Proof.
  induction 1 as [u|u v p w Hadj _ IH]; [by left|].
  right. destruct IH as [<-|H]; [|done]. apply Hadj.
Qed.

(** ** Claims about [find_shortest_path] *)

(** C5.  When [find_shortest_path] returns a path, the path starts at
    [start], ends at [end_], every two consecutive nodes are committed
    placements within Chebyshev distance [r], and no path of the adjacency
    graph from [start] to [end_] has fewer edges.  With placements (0,0),
    (1,1), (5,5) and [r = 2] the query from (0,0) to (5,5) returns NotFound
    and the query from (0,0) to (1,1) returns [[(0,0); (1,1)]]. *)
Theorem shortest_path_correct :
  (∀ (self : CityGrid) (start end_ : coord) (r : Z) (path : list coord),
     find_shortest_path self start end_ r = Some (Ok (Some path)) →
     head path = Some start ∧ last path = Some end_ ∧
     (∀ i u v, path !! i = Some u → path !! S i = Some v →
        u ∈ towers self ∧ v ∈ towers self ∧ chebyshev u v ≤ r) ∧
     (∀ ws, walk (adjacent (towers self) r) start ws end_ →
        (length path - 1 ≤ length ws - 1)%nat)) ∧
  find_shortest_path (city_with_towers [(0, 0); (1, 1); (5, 5)]) (0, 0) (5, 5) 2
    = Some (Ok None) ∧
  find_shortest_path (city_with_towers [(0, 0); (1, 1); (5, 5)]) (0, 0) (1, 1) 2
    = Some (Ok (Some [(0, 0); (1, 1)])).
Proof.
  split; [|split; vm_compute; reflexivity].
  intros self start end_ r path Hres.
  apply find_shortest_path_sound in Hres as [Hwalk Hmin].
  destruct (walk_ends _ _ _ _ Hwalk) as [Hhead Hlast].
  split; [done|]. split; [done|]. split.
  - intros i u v Hu Hv. by apply (walk_consecutive _ _ _ _ Hwalk i).
  - intros ws Hws. specialize (Hmin ws Hws). lia.
Qed.

Lemma shortest_path_correct_witness :
  head [(0, 0); (1, 1)] = Some (0, 0) ∧ last [(0, 0); (1, 1)] = Some (1, 1) ∧
  (∀ i u v, [(0, 0); (1, 1)] !! i = Some u → [(0, 0); (1, 1)] !! S i = Some v →
     u ∈ [(0, 0); (1, 1); (5, 5)] ∧ v ∈ [(0, 0); (1, 1); (5, 5)] ∧
     chebyshev u v ≤ 2) ∧
  (∀ ws, walk (adjacent [(0, 0); (1, 1); (5, 5)] 2) (0, 0) ws (1, 1) →
     (length [(0, 0); (1, 1)] - 1 ≤ length ws - 1)%nat).
Proof.
  apply (proj1 shortest_path_correct
           (city_with_towers [(0, 0); (1, 1); (5, 5)]) (0, 0) (1, 1) 2).
  vm_compute. reflexivity.
Defined.

(** C6 (amended).  When [start] is one of the committed placements,
    [find_shortest_path] returns NotFound, without raising, whenever [end_]
    is unreachable from [start] in the adjacency graph (and only then), in
    particular whenever [end_] is not one of the committed placements. *)
Theorem not_found_when_unreachable
    (self : CityGrid) (start end_ : coord) (r : Z) :
  start ∈ towers self →
  ((∀ ws, ¬ walk (adjacent (towers self) r) start ws end_) ↔
   find_shortest_path self start end_ r = Some (Ok None)) ∧
  (end_ ∉ towers self →
   find_shortest_path self start end_ r = Some (Ok None)).
Proof.
  intros Hstart. split.
  - split; [by apply find_shortest_path_not_found|].
    apply find_shortest_path_complete.
  - intros Hend. apply find_shortest_path_not_found; [done|].
    intros ws Hws. apply adjacent_walk_end_tower in Hws as [<-|H]; done.
Qed.

Lemma not_found_when_unreachable_witness :
  find_shortest_path (city_with_towers [(0, 0); (1, 1)]) (0, 0) (5, 5) 2
    = Some (Ok None).
Proof.
  refine (proj2 (not_found_when_unreachable (city_with_towers [(0, 0); (1, 1)])
                   (0, 0) (5, 5) 2 _) _).
  - cbn. by left.
  - cbn. rewrite !elem_of_cons, elem_of_nil. intros [[=]|[[=]|[]]].
Defined.

(** C6 as stated fails when [start] is not a committed placement: the
    lookup of its adjacency list raises a key error, and when [end_] is
    that same node the query returns the one-node path. *)
Lemma unknown_start_counterexample :
  ((7, 7) ∉ towers (city_with_towers [(0, 0); (1, 1)])) ∧
  find_shortest_path (city_with_towers [(0, 0); (1, 1)]) (7, 7) (0, 0) 2
    = Some (Raise KeyError) ∧
  find_shortest_path (city_with_towers [(0, 0); (1, 1)]) (7, 7) (7, 7) 2
    = Some (Ok (Some [(7, 7)])).
Proof.
  split; [|split; vm_compute; reflexivity].
  cbn. rewrite !elem_of_cons, elem_of_nil. intros [[=]|[[=]|[]]].
Qed.

(** C9.  For every node [P] and every [r], [find_shortest_path P P r]
    returns the one-node path [[P]]; the first pass through the loop
    returns it as soon as [P] is taken from the queue, whatever the dict
    holds, so no adjacency list is read and nothing is visited. *)
Theorem self_path_returned_immediately :
  (∀ (self : CityGrid) (P : coord) (r : Z),
     find_shortest_path self P P r = Some (Ok (Some [P]))) ∧
  (∀ (graph : gmap coord (list coord)) (P : coord) (visited : gset coord)
     (queue : list (coord * list coord)),
     bfs_step graph P visited ((P, [P]) :: queue) = Ok (Return (Some [P]))).
Proof.
  split.
  - intros self P r. unfold find_shortest_path, breadth_first.
    rewrite Nat.add_comm. cbn [Nat.add breadth_first_loop bfs_step].
    by rewrite decide_True.
  - intros graph P visited queue. unfold bfs_step. by rewrite decide_True.
Qed.

(** * Further properties of the code *)

(** ** [place_tower] on every input *)

Lemma np_index_Some (len i k : Z) :
  np_index len i = Some k →
  0 ≤ k < len ∧ (k = i ∨ (i < 0 ∧ k = i + len)).
Proof.
  unfold np_index. repeat case_decide; intros [= <-]; lia.
Qed.

Lemma getitem_wf (self : CityGrid) (x y : Z) :
  wf_grid self →
  getitem (grid self) x y =
    match np_index (n self) x, np_index (m self) y with
    | Some i, Some j => Ok (cell (grid self) i j)
    | _, _ => Raise IndexError
    end.
Proof.
  intros (Hn & Hm & Hlen & Hrows). unfold getitem, cell.
  rewrite Hlen, Z2Nat.id by done.
  destruct (np_index (n self) x) as [i|] eqn:Hi; [|done].
  apply np_index_Some in Hi as [Hi _].
  destruct (lookup_lt_is_Some_2 (grid self) (Z.to_nat i)) as [row Hrow]; [lia|].
  rewrite Hrow. cbn.
  rewrite Forall_forall in Hrows.
  specialize (Hrows row (list_elem_of_lookup_2 _ _ _ Hrow)).
  rewrite Hrows, Z2Nat.id by done.
  destruct (np_index (m self) y) as [j|] eqn:Hj; [|done].
  apply np_index_Some in Hj as [Hj _].
  destruct (lookup_lt_is_Some_2 row (Z.to_nat j)) as [v Hv]; [lia|].
  by rewrite Hv.
Qed.

Lemma place_tower_wf (self : CityGrid) (x y r : Z) :
  wf_grid self →
  place_tower self x y r =
    match np_index (n self) x, np_index (m self) y with
    | Some i, Some j =>
        if decide (cell (grid self) i j = -1)
        then Raise invalid_placement
        else Ok (placed self x y r)
    | _, _ => Raise IndexError
    end.
Proof.
  intros Hwf. rewrite place_tower_unfold, getitem_wf by done.
  destruct (np_index (n self) x), (np_index (m self) y); done.
Qed.

Lemma place_tower_Ok_placed (self self' : CityGrid) (x y r : Z) :
  wf_grid self → place_tower self x y r = Ok self' → self' = placed self x y r.
Proof.
  intros Hwf. rewrite place_tower_wf by done.
  destruct (np_index (n self) x), (np_index (m self) y); try done.
  case_decide; [done|]. by intros [= <-].
Qed.

(** Two grids of one shape that agree on every cell are equal. *)
Lemma grid_ext (g g' : list (list Z)) (rows cols : Z) :
  grid_shape g rows cols → grid_shape g' rows cols →
  (∀ i j, 0 ≤ i < rows → 0 ≤ j < cols → cell g i j = cell g' i j) →
  g = g'.
Proof.
  intros [Hlen Hrows] [Hlen' Hrows'] Hcell.
  rewrite Forall_forall in Hrows, Hrows'.
  apply list_eq. intros i.
  destruct (decide (i < length g)%nat) as [Hi|Hi].
  - destruct (lookup_lt_is_Some_2 g i) as [row Hrow]; [done|].
    destruct (lookup_lt_is_Some_2 g' i) as [row' Hrow']; [lia|].
    rewrite Hrow, Hrow'. f_equal.
    pose proof (Hrows row (list_elem_of_lookup_2 _ _ _ Hrow)) as Hl.
    pose proof (Hrows' row' (list_elem_of_lookup_2 _ _ _ Hrow')) as Hl'.
    apply list_eq. intros j.
    destruct (decide (j < length row)%nat) as [Hj|Hj].
    + destruct (lookup_lt_is_Some_2 row j) as [v Hv]; [done|].
      destruct (lookup_lt_is_Some_2 row' j) as [v' Hv']; [lia|].
      rewrite Hv, Hv'. f_equal.
      specialize (Hcell (Z.of_nat i) (Z.of_nat j)).
      unfold cell in Hcell. rewrite !Nat2Z.id, Hrow, Hrow' in Hcell.
      cbn in Hcell. rewrite Hv, Hv' in Hcell. apply Hcell; lia.
    + rewrite !lookup_ge_None_2; [done|lia|lia].
  - rewrite !lookup_ge_None_2; [done|lia|lia].
Qed.

Lemma placed_grid_ext (self self' : CityGrid) :
  wf_grid self → wf_grid self' → n self' = n self → m self' = m self →
  (∀ c, in_bounds self c → cell (grid self') c.1 c.2 = cell (grid self) c.1 c.2) →
  grid self' = grid self.
Proof.
  intros Hwf Hwf' Hn Hm Hcell.
  apply (grid_ext _ _ (n self) (m self)).
  - rewrite <- Hn, <- Hm. by apply wf_grid_shape.
  - by apply wf_grid_shape.
  - intros i j Hi Hj. by apply (Hcell (i, j)).
Qed.

Lemma window_placed (self : CityGrid) (a b r x y r' : Z) :
  window (placed self a b r) x y r' = window self x y r'.
Proof. done. Qed.

Lemma window_negative_range (self : CityGrid) (x y r : Z) :
  r < 0 → window self x y r = [].
Proof.
  intros Hr. apply elem_of_nil_inv. intros c Hc.
  apply elem_of_window in Hc. lia.
Qed.

(** X1.  An index outside [-n, n) for the row or [-m, m) for the column
    makes the guard of [place_tower] raise numpy's IndexError: nothing is
    marked and nothing is recorded. *)
Theorem place_tower_index_error (self : CityGrid) (x y r : Z) :
  wf_grid self →
  x < - n self ∨ n self ≤ x ∨ y < - m self ∨ m self ≤ y →
  place_tower self x y r = Raise IndexError.
Proof.
  intros Hwf Hout. rewrite place_tower_wf by done.
  destruct (np_index (n self) x) as [i|] eqn:Hi; [|done].
  destruct (np_index (m self) y) as [j|] eqn:Hj; [|done].
  apply np_index_Some in Hi, Hj. lia.
Qed.

Lemma place_tower_index_error_witness :
  place_tower city_3x5 3 0 1 = Raise IndexError.
Proof.
  apply (place_tower_index_error city_3x5 3 0 1).
  - solve_wf_grid.
  - cbn. lia.
Defined.

(** X2.  A negative index within [-n, 0) or [-m, 0) is accepted: the guard
    reads the cell counted from the end of the axis, but the window that is
    marked and the coordinate that is recorded use the index as given.
    The placement fails exactly when the cell the guard reads is
    obstructed. *)
Theorem place_tower_wraps_negative_index (self : CityGrid) (x y r : Z) :
  wf_grid self → - n self ≤ x < n self → - m self ≤ y < m self →
  let i := if decide (x < 0) then x + n self else x in
  let j := if decide (y < 0) then y + m self else y in
  (place_tower self x y r = Raise invalid_placement ↔
     cell (grid self) i j = -1) ∧
  (cell (grid self) i j ≠ -1 →
     ∃ self', place_tower self x y r = Ok self' ∧
       towers self' = towers self ++ [(x, y)] ∧
       ∀ c, in_bounds self c →
         cell (grid self') c.1 c.2 =
           if decide (chebyshev c (x, y) ≤ r ∧ cell (grid self) c.1 c.2 ≠ -1)
           then 1 else cell (grid self) c.1 c.2).
Proof.
  intros Hwf Hx Hy i j. rewrite place_tower_wf by done.
  assert (np_index (n self) x = Some i) as ->.
  { unfold np_index, i. repeat case_decide; (done || lia). }
  assert (np_index (m self) y = Some j) as ->.
  { unfold np_index, j. repeat case_decide; (done || lia). }
  split.
  - case_decide; split; (done || congruence).
  - intros Hfree. rewrite decide_False by done.
    exists (placed self x y r). split; [done|]. split; [done|].
    intros c Hc. destruct (Hc) as [Hc1 Hc2].
    rewrite cell_placed by (done || lia).
    pose proof (elem_of_window_chebyshev self x y r c) as Hw.
    repeat case_decide; (done || tauto).
Qed.

Lemma place_tower_wraps_negative_index_witness :
  place_tower city_3x5 (-2) 1 1 = Raise invalid_placement ↔
  cell (grid city_3x5) 1 1 = -1.
Proof.
  refine (proj1 (place_tower_wraps_negative_index city_3x5 (-2) 1 1 _ _ _)).
  - solve_wf_grid.
  - cbn. lia.
  - cbn. lia.
Defined.

(** X3.  Whenever [place_tower] succeeds it leaves the dimensions, the
    budget and the catalog alone, appends exactly the given coordinate to
    [towers], and keeps the array well-formed; a cell is obstructed after
    the call exactly when it was before, a Covered cell stays Covered, and
    a cell whose value changed is now Covered and lies within the range. *)
Theorem place_tower_frame (self self' : CityGrid) (x y r : Z) :
  wf_grid self → place_tower self x y r = Ok self' →
  n self' = n self ∧ m self' = m self ∧ budget self' = budget self ∧
  tower_types self' = tower_types self ∧
  towers self' = towers self ++ [(x, y)] ∧ wf_grid self' ∧
  ∀ c, in_bounds self c →
    (cell (grid self') c.1 c.2 = -1 ↔ cell (grid self) c.1 c.2 = -1) ∧
    (cell (grid self) c.1 c.2 = 1 → cell (grid self') c.1 c.2 = 1) ∧
    (cell (grid self') c.1 c.2 ≠ cell (grid self) c.1 c.2 →
       cell (grid self') c.1 c.2 = 1 ∧ chebyshev c (x, y) ≤ r).
Proof.
  intros Hwf Hok. apply place_tower_Ok_placed in Hok as ->; [|done].
  repeat (split; [done|]). split; [by apply placed_wf|].
  intros c Hc.
  destruct (placed_cell_facts self x y r c Hwf Hc) as (H1 & H2 & _).
  split; [done|]. split; [done|].
  destruct (Hc) as [Hc1 Hc2]. rewrite cell_placed by (done || lia).
  case_decide as Hw; [|done]. intros _. split; [done|].
  destruct Hw as [Hw _]. by apply elem_of_window_chebyshev in Hw as [_ Hw].
Qed.

Lemma place_tower_frame_witness :
  n (placed city_3x5 1 3 1) = n city_3x5 ∧
  m (placed city_3x5 1 3 1) = m city_3x5 ∧
  budget (placed city_3x5 1 3 1) = budget city_3x5 ∧
  tower_types (placed city_3x5 1 3 1) = tower_types city_3x5 ∧
  towers (placed city_3x5 1 3 1) = towers city_3x5 ++ [(1, 3)] ∧
  wf_grid (placed city_3x5 1 3 1) ∧
  ∀ c, in_bounds city_3x5 c →
    (cell (grid (placed city_3x5 1 3 1)) c.1 c.2 = -1 ↔
       cell (grid city_3x5) c.1 c.2 = -1) ∧
    (cell (grid city_3x5) c.1 c.2 = 1 →
       cell (grid (placed city_3x5 1 3 1)) c.1 c.2 = 1) ∧
    (cell (grid (placed city_3x5 1 3 1)) c.1 c.2 ≠ cell (grid city_3x5) c.1 c.2 →
       cell (grid (placed city_3x5 1 3 1)) c.1 c.2 = 1 ∧ chebyshev c (1, 3) ≤ 1).
Proof.
  apply (place_tower_frame city_3x5 (placed city_3x5 1 3 1) 1 3 1).
  - solve_wf_grid.
  - vm_compute. reflexivity.
Defined.

Lemma place_tower_again (self : CityGrid) (a b r x y r' : Z) :
  wf_grid self →
  (∃ s, place_tower self x y r' = Ok s) →
  place_tower (placed self a b r) x y r' = Ok (placed (placed self a b r) x y r').
Proof.
  intros Hwf [s Hs]. pose proof (placed_wf self a b r Hwf) as Hwf'.
  rewrite place_tower_wf in Hs by done. rewrite place_tower_wf by done.
  change (n (placed self a b r)) with (n self).
  change (m (placed self a b r)) with (m self).
  destruct (np_index (n self) x) as [i|] eqn:Hi; [|done].
  destruct (np_index (m self) y) as [j|] eqn:Hj; [|done].
  apply np_index_Some in Hi as [Hi _]. apply np_index_Some in Hj as [Hj _].
  case_decide as Hobs; [done|].
  destruct (placed_cell_facts self a b r (i, j) Hwf) as (H1 & _); [done|].
  cbn [fst snd] in H1. rewrite decide_False; [done|]. tauto.
Qed.

(** X4.  Placing the same tower a second time succeeds and leaves the grid
    as the first placement left it; the coordinate is recorded a second
    time. *)
Theorem place_tower_twice (self self' : CityGrid) (x y r : Z) :
  wf_grid self → place_tower self x y r = Ok self' →
  ∃ self'', place_tower self' x y r = Ok self'' ∧
    grid self'' = grid self' ∧
    towers self'' = towers self ++ [(x, y); (x, y)].
Proof.
  intros Hwf Hok. pose proof Hok as Hp.
  apply place_tower_Ok_placed in Hp as ->; [|done].
  exists (placed (placed self x y r) x y r).
  split; [apply place_tower_again; eauto|]. split.
  - pose proof (placed_wf self x y r Hwf) as Hwf'.
    apply placed_grid_ext; [done|by apply placed_wf|done|done|].
    intros c Hc. destruct (Hc) as [Hc1 Hc2].
    rewrite (cell_placed (placed self x y r)) by (done || lia).
    rewrite window_placed, (cell_placed self) by (done || lia).
    repeat case_decide; try done; tauto.
  - cbn. by rewrite <- app_assoc.
Qed.

Lemma place_tower_twice_witness :
  ∃ self'', place_tower (placed city_3x5 1 3 1) 1 3 1 = Ok self'' ∧
    grid self'' = grid (placed city_3x5 1 3 1) ∧
    towers self'' = towers city_3x5 ++ [(1, 3); (1, 3)].
Proof.
  apply (place_tower_twice city_3x5 (placed city_3x5 1 3 1) 1 3 1).
  - solve_wf_grid.
  - vm_compute. reflexivity.
Defined.

(** X5.  Two placements can be made in either order: both orders succeed
    and give the same grid (only the order of [towers] differs). *)
Theorem place_tower_commutes (self s1 s2 : CityGrid) (x1 y1 r1 x2 y2 r2 : Z) :
  wf_grid self →
  place_tower self x1 y1 r1 = Ok s1 → place_tower s1 x2 y2 r2 = Ok s2 →
  ∃ t1 t2, place_tower self x2 y2 r2 = Ok t1 ∧ place_tower t1 x1 y1 r1 = Ok t2 ∧
    grid t2 = grid s2 ∧
    towers s2 = towers self ++ [(x1, y1); (x2, y2)] ∧
    towers t2 = towers self ++ [(x2, y2); (x1, y1)].
Proof.
  intros Hwf H1 H2. pose proof H1 as H1'.
  apply place_tower_Ok_placed in H1' as ->; [|done].
  pose proof (placed_wf self x1 y1 r1 Hwf) as Hwf1.
  pose proof H2 as H2'. apply place_tower_Ok_placed in H2' as ->; [|done].
  assert (place_tower self x2 y2 r2 = Ok (placed self x2 y2 r2)) as Ht1.
  { rewrite place_tower_wf in H2 by done. rewrite place_tower_wf by done.
    change (n (placed self x1 y1 r1)) with (n self) in H2.
    change (m (placed self x1 y1 r1)) with (m self) in H2.
    destruct (np_index (n self) x2) as [i|] eqn:Hi; [|done].
    destruct (np_index (m self) y2) as [j|] eqn:Hj; [|done].
    apply np_index_Some in Hi as [Hi _]. apply np_index_Some in Hj as [Hj _].
    destruct (placed_cell_facts self x1 y1 r1 (i, j) Hwf) as (Hobs & _); [done|].
    cbn [fst snd] in Hobs. repeat case_decide; try done; tauto. }
  pose proof (placed_wf self x2 y2 r2 Hwf) as Hwf2.
  exists (placed self x2 y2 r2), (placed (placed self x2 y2 r2) x1 y1 r1).
  split; [done|]. split; [apply place_tower_again; eauto|]. split.
  - apply (grid_ext _ _ (n self) (m self)).
    + by apply (wf_grid_shape _ (placed_wf _ x1 y1 r1 Hwf2)).
    + by apply (wf_grid_shape _ (placed_wf _ x2 y2 r2 Hwf1)).
    + intros i j Hi Hj.
      pose proof (cell_placed (placed self x2 y2 r2) x1 y1 r1 (i, j) Hwf2) as Ha.
      pose proof (cell_placed (placed self x1 y1 r1) x2 y2 r2 (i, j) Hwf1) as Hb.
      pose proof (cell_placed self x1 y1 r1 (i, j) Hwf) as Hc.
      pose proof (cell_placed self x2 y2 r2 (i, j) Hwf) as Hd.
      cbn [fst snd] in Ha, Hb, Hc, Hd.
      rewrite Ha, Hb, Hc, Hd, !window_placed by lia.
      repeat case_decide; try done; tauto.
  - cbn. by rewrite <- !app_assoc.
Qed.

Lemma place_tower_commutes_witness :
  ∃ t1 t2, place_tower city_3x5 0 0 2 = Ok t1 ∧ place_tower t1 1 3 1 = Ok t2 ∧
    grid t2 = grid (placed (placed city_3x5 1 3 1) 0 0 2) ∧
    towers (placed (placed city_3x5 1 3 1) 0 0 2) =
      towers city_3x5 ++ [(1, 3); (0, 0)] ∧
    towers t2 = towers city_3x5 ++ [(0, 0); (1, 3)].
Proof.
  apply (place_tower_commutes city_3x5 (placed city_3x5 1 3 1)
           (placed (placed city_3x5 1 3 1) 0 0 2) 1 3 1 0 0 2).
  - solve_wf_grid.
  - vm_compute. reflexivity.
  - vm_compute. reflexivity.
Defined.

(** X6.  With a negative range [place_tower] still succeeds on a
    non-obstructed cell and records the tower, but marks no cell at all,
    not even the one the tower stands on. *)
Theorem place_tower_negative_range (self self' : CityGrid) (x y r : Z) :
  wf_grid self → r < 0 → place_tower self x y r = Ok self' →
  grid self' = grid self ∧ towers self' = towers self ++ [(x, y)].
Proof.
  intros Hwf Hr Hok. apply place_tower_Ok_placed in Hok as ->; [|done].
  split; [|done]. cbn. by rewrite window_negative_range.
Qed.

Lemma place_tower_negative_range_witness :
  grid (placed city_2x2 0 0 (-1)) = grid city_2x2 ∧
  towers (placed city_2x2 0 0 (-1)) = towers city_2x2 ++ [(0, 0)].
Proof.
  apply (place_tower_negative_range city_2x2 (placed city_2x2 0 0 (-1)) 0 0 (-1)).
  - solve_wf_grid.
  - lia.
  - vm_compute. reflexivity.
Defined.

(** ** [calculate_coverage] *)

Lemma length_py_range (a b : Z) : length (py_range a b) = Z.to_nat (b - a).
Proof. unfold py_range. apply length_seqZ. Qed.

Lemma length_cells (xs ys : list Z) :
  length (cells xs ys) = (length xs * length ys)%nat.
Proof.
  unfold cells. induction xs as [|i xs IH]; [done|].
  cbn [mbind list_bind length]. rewrite length_app.
  change (length (mbind (λ i0, mbind (λ j, [(i0, j)]) ys) xs)
          = (length xs * length ys)%nat) in IH.
  rewrite IH.
  assert (length (mbind (λ j, [(i, j)]) ys) = length ys) as ->; [|lia].
  clear IH. induction ys as [|j ys IH]; [done|]. cbn in *. by rewrite IH.
Qed.

Lemma NoDup_cells (xs ys : list Z) :
  NoDup xs → NoDup ys → NoDup (cells xs ys).
Proof.
  intros Hxs Hys. unfold cells. apply NoDup_bind; [| |done].
  - intros i1 i2 c _ _ H1 H2.
    apply list_elem_of_bind in H1 as (j1 & H1 & _).
    apply list_elem_of_bind in H2 as (j2 & H2 & _).
    apply list_elem_of_singleton in H1, H2. congruence.
  - intros i _. apply NoDup_bind; [| |done].
    + intros j1 j2 c _ _ H1 H2. apply list_elem_of_singleton in H1, H2. congruence.
    + intros j _. apply NoDup_singleton.
Qed.

Lemma NoDup_py_range (a b : Z) : NoDup (py_range a b).
Proof. apply NoDup_seqZ. Qed.

Lemma length_window (self : CityGrid) (x y r : Z) :
  0 ≤ r → Z.of_nat (length (window self x y r)) ≤ (2 * r + 1) * (2 * r + 1).
Proof.
  intros Hr. unfold window. rewrite length_cells, !length_py_range, Nat2Z.inj_mul.
  apply Z.mul_le_mono_nonneg; lia.
Qed.

Lemma calculate_coverage_window (self : CityGrid) (x y r : Z) (S : gset coord) :
  calculate_coverage self x y r S ⊆ list_to_set (window self x y r).
Proof.
  intros c Hc. apply elem_of_calculate_coverage in Hc as [Hc _].
  by apply elem_of_list_to_set.
Qed.

Lemma size_calculate_coverage_le (self : CityGrid) (x y r : Z) (S : gset coord) :
  0 ≤ r →
  Z.of_nat (size (calculate_coverage self x y r S)) ≤ (2 * r + 1) * (2 * r + 1).
Proof.
  intros Hr. etrans; [|by apply (length_window self x y r)].
  apply inj_le. etrans.
  - apply subseteq_size, calculate_coverage_window.
  - apply size_list_to_set_le.
Qed.

(** With the catalog of the source every value the scan computes is a
    multiple of 1/60 between 0 and 50/60.  Float division is correctly
    rounded: it keeps the order of these quotients and keeps different
    ones apart, so the comparisons of line 65 come out as the comparisons
    of the exact quotients. *)
Lemma value_default_catalog (self : CityGrid) (unc : gset coord) (c : candidate) :
  tower_types self = default_tower_types → c ∈ candidates self →
  ∃ k, 0 ≤ k ≤ 50 ∧ (value self unc c == k # 60)%Q.
Proof.
  intros Hcat Hc. apply elem_of_candidates in Hc as (Hitem & _).
  rewrite Hcat in Hitem. unfold value.
  pose proof (size_calculate_coverage_le self c.1.1 c.1.2 (range c.2.2) unc) as Hsize.
  set (a := Z.of_nat (size (calculate_coverage self c.1.1 c.1.2 (range c.2.2) unc))) in *.
  assert (0 ≤ a) as Ha by (unfold a; lia).
  destruct c as [xy item]. cbn [fst snd] in *.
  unfold default_tower_types in Hitem.
  repeat (apply elem_of_cons in Hitem as [->|Hitem]);
    [| | |by apply elem_of_nil in Hitem]; cbn [range cost snd] in *.
  - exists (4 * a). split; [lia|]. unfold Qeq. cbn. lia.
  - exists (2 * a). split; [lia|]. unfold Qeq. cbn. lia.
  - exists a. split; [lia|]. unfold Qeq. cbn. lia.
Qed.

(** X7.  The set returned by [calculate_coverage] is a subset of the set it
    is given; it is empty for a negative range, and for a range [r ≥ 0] it
    has at most [(2r+1)^2] members, wherever the centre lies. *)
Theorem calculate_coverage_bounds (self : CityGrid) (x y r : Z) (S : gset coord) :
  calculate_coverage self x y r S ⊆ S ∧
  (r < 0 → calculate_coverage self x y r S = ∅) ∧
  (0 ≤ r →
   Z.of_nat (size (calculate_coverage self x y r S)) ≤ (2 * r + 1) * (2 * r + 1)).
Proof.
  split; [apply calculate_coverage_subseteq|]. split.
  - intros Hr. apply set_eq. intros c.
    rewrite elem_of_calculate_coverage, window_negative_range by done.
    set_solver.
  - intros Hr. etrans; [|by apply (length_window self x y r)].
    apply inj_le. etrans.
    + apply subseteq_size, calculate_coverage_window.
    + apply size_list_to_set_le.
Qed.

(** X8.  [calculate_coverage] grows with the range and with the set: a
    larger range or a larger set of uncovered cells never loses a covered
    cell. *)
Theorem calculate_coverage_monotone (self : CityGrid) (x y r r' : Z)
    (S S' : gset coord) :
  r ≤ r' → S ⊆ S' →
  calculate_coverage self x y r S ⊆ calculate_coverage self x y r' S'.
Proof.
  intros Hr HS c. rewrite !elem_of_calculate_coverage, !elem_of_window.
  intros [Hw Hc]. split; [lia|]. by apply HS.
Qed.

Lemma calculate_coverage_monotone_witness :
  calculate_coverage city_3x5 1 3 1 ({[ (0, 2) ]} : gset coord) ⊆
  calculate_coverage city_3x5 1 3 2 ({[ (0, 2) ]} ∪ {[ (0, 0) ]}).
Proof.
  apply (calculate_coverage_monotone city_3x5 1 3 1 2).
  - lia.
  - set_solver.
Defined.

(** X9.  Once the cells a tower covers are taken out of the uncovered set,
    the same tower (or one of smaller range at the same place) covers
    nothing more: asked again, [calculate_coverage] returns the empty
    set. *)
Theorem calculate_coverage_exhausted (self : CityGrid) (x y r r' : Z)
    (S : gset coord) :
  r' ≤ r →
  calculate_coverage self x y r' (S ∖ calculate_coverage self x y r S) = ∅.
Proof.
  intros Hr. apply set_eq. intros c.
  rewrite elem_of_calculate_coverage, elem_of_difference,
    elem_of_calculate_coverage, !elem_of_window.
  split; [|set_solver]. intros (Hw & Hc & Hnot). exfalso. apply Hnot.
  split; [lia|done].
Qed.

Lemma calculate_coverage_exhausted_witness :
  calculate_coverage city_3x5 1 3 1
    (initial_uncovered city_3x5 ∖
       calculate_coverage city_3x5 1 3 2 (initial_uncovered city_3x5)) = ∅.
Proof.
  apply (calculate_coverage_exhausted city_3x5 1 3 2 1). lia.
Defined.

Lemma calculate_coverage_centre (self : CityGrid) (c : coord) (r : Z)
    (S : gset coord) :
  in_bounds self c → 0 ≤ r → c ∈ S → c ∈ calculate_coverage self c.1 c.2 r S.
Proof.
  intros [H1 H2] Hr Hc. apply elem_of_calculate_coverage. split; [|done].
  apply elem_of_window. lia.
Qed.

(** ** [place_towers] from start to end *)

Lemma place_towers_result (self final : CityGrid) (log : list choice) :
  wf_grid self → wf_catalog self →
  place_towers self = Some (Ok (final, log)) →
  ∃ unc', runs (loop_start self) log (final, unc') ∧
          loop_inv (final, unc') ∧
          place_towers_body final unc' = Ok Exit.
Proof.
  intros Hwf Hcat Hres.
  destruct (place_towers_runs self Hwf Hcat) as (final' & unc' & log' & Hrun & Hruns & Hexit).
  rewrite Hres in Hrun. injection Hrun as <- <-.
  exists unc'. split; [done|]. split; [|done].
  apply (runs_inv _ _ _ Hruns). by apply loop_start_inv.
Qed.

Lemma NoDup_free_cells (self : CityGrid) : NoDup (free_cells self).
Proof.
  rewrite free_cells_filter. apply NoDup_filter, NoDup_cells; apply NoDup_py_range.
Qed.

Lemma size_initial_uncovered (self : CityGrid) :
  size (initial_uncovered self) = length (free_cells self).
Proof. apply size_list_to_set, NoDup_free_cells. Qed.

Lemma is_free_set_initial (self : CityGrid) (S : gset coord) :
  is_free_set self S → S = initial_uncovered self.
Proof.
  intros HS. apply set_eq. intros c.
  rewrite (HS c), (initial_uncovered_is_free self c). done.
Qed.

Lemma runs_steps (s s' : loop_state) (log : list choice) :
  runs s log s' → loop_inv s → (size s'.2 + length log ≤ size s.2)%nat.
Proof.
  induction 1 as [s|[self unc] self' unc' ch log s'' Hbody _ IH]; intros Hinv.
  { cbn. lia. }
  pose proof (iteration_shrinks _ _ _ _ _ Hinv Hbody) as Hlt.
  destruct (iteration_inv _ _ _ _ _ Hinv Hbody)
    as (_ & _ & _ & _ & _ & _ & _ & _ & _ & _ & _ & _ & _ & _ & _ & Hinv').
  specialize (IH Hinv'). cbn [fst snd length] in *. lia.
Qed.

Lemma runs_log_types (s s' : loop_state) (log : list choice) :
  runs s log s' → loop_inv s →
  ∀ ch, ch ∈ log →
    ∃ p, (ch.2, p) ∈ tower_types s.1 ∧ tower_type_lookup s.1 ch.2 = Ok p.
Proof.
  induction 1 as [s|[self unc] self' unc' ch0 log s'' Hbody _ IH]; intros Hinv ch Hch.
  { by apply elem_of_nil in Hch. }
  destruct (iteration_inv _ _ _ _ _ Hinv Hbody)
    as (x & y & t & p & -> & Hitem & Hlook & _ & _ & _ & _ & _ & _ & -> & _ & Hinv').
  apply elem_of_cons in Hch as [->|Hch]; [by exists p|].
  apply (IH Hinv' ch Hch).
Qed.

Lemma spent_lower_bound (self : CityGrid) (log : list choice) (k : Z) :
  (∀ ch, ch ∈ log → k ≤ choice_cost self ch) →
  k * Z.of_nat (length log) ≤ spent self log.
Proof.
  induction log as [|ch log IH]; intros Hk; [cbn; lia|].
  change (spent self (ch :: log)) with (choice_cost self ch + spent self log).
  cbn [length]. rewrite Nat2Z.inj_succ.
  assert (k ≤ choice_cost self ch) by (apply Hk; by left).
  assert (k * Z.of_nat (length log) ≤ spent self log).
  { apply IH. intros ch' Hch'. apply Hk. by right. }
  lia.
Qed.

(** Along a run, a cell that was Free either is still Free or has been
    Covered by a committed tower that has it in range. *)
Lemma runs_free_or_covered (s s' : loop_state) (log : list choice) :
  runs s log s' → loop_inv s →
  ∀ c, in_bounds s.1 c → cell (grid s.1) c.1 c.2 = 0 →
    cell (grid s'.1) c.1 c.2 = 0 ∨
    (cell (grid s'.1) c.1 c.2 = 1 ∧
     ∃ ch p, ch ∈ log ∧ tower_type_lookup s.1 ch.2 = Ok p ∧
             chebyshev c (choice_coord ch) ≤ range p).
Proof.
  induction 1 as [s|[self unc] self' unc' ch0 log s'' Hbody Hruns IH]; intros Hinv c Hc H0.
  { by left. }
  destruct (iteration_inv _ _ _ _ _ Hinv Hbody)
    as (x & y & t & p0 & -> & _ & Hlook0 & _ & _ & _ & _ & _ & _ & -> & _ & Hinv').
  destruct (runs_grid _ _ _ Hruns Hinv') as (_ & _ & Hgrid).
  pose proof Hinv as (Hwf & _). cbn [fst snd] in *.
  destruct (decide (c ∈ window self x y (range p0))) as [Hw|Hw].
  - right. split.
    + apply (Hgrid c Hc). cbn [grid set_budget].
      destruct (Hc) as [Hc1 Hc2]. rewrite cell_placed by (done || lia).
      rewrite decide_True; [done|]. split; [done|lia].
    + exists (x, y, t), p0. split; [by left|]. split; [done|].
      by apply elem_of_window_chebyshev in Hw as [_ Hw].
  - assert (cell (grid (placed self x y (range p0))) c.1 c.2 = 0) as H0'.
    { by apply free_after_placed. }
    destruct (IH Hinv' c Hc H0') as [Hfree|(H1 & ch & p & Hch & Hlook & Hd)].
    + by left.
    + right. split; [done|]. exists ch, p. split; [by right|]. done.
Qed.

(** X10.  On a well-formed object with the catalog of the source,
    [place_towers] does not stop early: when it returns, either no Free
    cell is left, or the budget is used up, or every tower type of
    non-negative range (all three of them) costs more than what remains of
    the budget. *)
Theorem place_towers_stops_only_when_stuck (self final : CityGrid)
    (log : list choice) :
  wf_grid self → tower_types self = default_tower_types →
  place_towers self = Some (Ok (final, log)) →
  free_cells final = [] ∨ budget final ≤ 0 ∨
  ∀ item, item ∈ tower_types self → 0 ≤ range item.2 →
    budget final < Z.pos (cost item.2).
Proof.
  intros Hwf Hcat Hres. apply wf_default_catalog in Hcat.
  destruct (place_towers_result _ _ _ Hwf Hcat Hres) as (unc' & Hruns & Hinv' & Hexit).
  destruct (runs_budget _ _ _ Hruns (loop_start_inv self Hwf Hcat)) as (Htypes & _).
  cbn [fst snd loop_start] in Htypes.
  destruct (free_cells final) as [|c0 l] eqn:Hfree; [by left|].
  destruct (decide (budget final ≤ 0)) as [|Hb]; [by right; left|].
  right. right. intros item Hitem Hrange.
  destruct (decide (budget final < Z.pos (cost item.2))) as [|Hcost]; [done|].
  exfalso.
  assert (c0 ∈ free_cells final) as Hc0 by (rewrite Hfree; by left).
  pose proof Hc0 as Hc0'. apply elem_of_free_cells in Hc0' as [Hin H0].
  destruct Hinv' as (_ & _ & Hset). cbn [fst snd] in Hset.
  assert (c0 ∈ unc') as Hunc by (by apply Hset).
  pose proof (scan_spec final unc') as Hscan.
  unfold place_towers_body in Hexit.
  rewrite decide_True in Hexit by (split; [set_solver|lia]).
  destruct (scan final unc').1 as [[[x y] t]|].
  - destruct (tower_type_lookup final t) as [p|]; [|done]. cbn in Hexit.
    destruct (place_tower final x y (range p)); done.
  - assert ((c0, item) ∈ candidates final) as Hcand.
    { apply elem_of_candidates. cbn. rewrite Htypes. split; [done|].
      split; [lia|done]. }
    specialize (Hscan _ Hcand).
    pose proof (value_pos final unc' (c0, item)) as Hpos. cbn in Hpos.
    assert (0 < value final unc' (c0, item))%Q as Hlt.
    { apply Hpos. intros Hempty.
      pose proof (calculate_coverage_centre final c0 (range item.2) unc' Hin Hrange Hunc) as Hc.
      rewrite Hempty in Hc. set_solver. }
    rewrite Hscan in Hlt. by apply Qlt_irrefl in Hlt.
Qed.

Lemma place_towers_stops_only_when_stuck_witness :
  free_cells city_3x5_final = [] ∨
  budget city_3x5_final ≤ 0 ∨
  ∀ item, item ∈ tower_types city_3x5 → 0 ≤ range item.2 →
    budget city_3x5_final
      < Z.pos (cost item.2).
Proof.
  apply (place_towers_stops_only_when_stuck city_3x5
           city_3x5_final city_3x5_log).
  - solve_wf_grid.
  - reflexivity.
  - vm_compute. reflexivity.
Defined.

(** X11.  Calling [place_towers] again on the state it returned changes
    nothing: the second call commits no placement and returns the same
    state. *)
Theorem place_towers_idempotent (self final : CityGrid) (log : list choice) :
  wf_grid self → wf_catalog self →
  place_towers self = Some (Ok (final, log)) →
  place_towers final = Some (Ok (final, [])).
Proof.
  intros Hwf Hcat Hres.
  destruct (place_towers_result _ _ _ Hwf Hcat Hres) as (unc' & _ & Hinv' & Hexit).
  destruct Hinv' as (_ & _ & Hset). cbn [fst snd] in Hset.
  apply is_free_set_initial in Hset as ->.
  unfold place_towers. cbn [place_towers_loop]. by rewrite Hexit.
Qed.

Lemma place_towers_idempotent_witness :
  place_towers city_3x5_final =
  Some (Ok (set_budget (placed (placed city_3x5 1 3 1) 1 0 1) 120, [])).
Proof.
  apply (place_towers_idempotent city_3x5 city_3x5_final city_3x5_log).
  - solve_wf_grid.
  - solve_wf_catalog.
  - vm_compute. reflexivity.
Defined.

(** X12.  Every committed placement covers at least one cell that was
    still Free: the number of Free cells at the end plus the number of
    placements is at most the number of Free cells at the start, so
    [place_towers] never places more towers than there are Free cells. *)
Theorem placements_bounded_by_free_cells (self final : CityGrid)
    (log : list choice) :
  wf_grid self → wf_catalog self →
  place_towers self = Some (Ok (final, log)) →
  (length (free_cells final) + length log ≤ length (free_cells self))%nat ∧
  length (towers final) = (length (towers self) + length log)%nat.
Proof.
  intros Hwf Hcat Hres.
  destruct (place_towers_result _ _ _ Hwf Hcat Hres) as (unc' & Hruns & Hinv' & _).
  pose proof (loop_start_inv self Hwf Hcat) as Hinv.
  pose proof (runs_steps _ _ _ Hruns Hinv) as Hsteps.
  pose proof (runs_towers _ _ _ Hruns Hinv) as Htowers.
  destruct Hinv' as (_ & _ & Hset). cbn [fst snd loop_start] in *.
  apply is_free_set_initial in Hset as ->.
  rewrite !size_initial_uncovered in Hsteps. split; [done|].
  by rewrite Htowers, length_app, length_fmap.
Qed.

Lemma placements_bounded_by_free_cells_witness :
  (length (free_cells city_3x5_final)
   + length city_3x5_log
   ≤ length (free_cells city_3x5))%nat ∧
  length (towers city_3x5_final) =
    (length (towers city_3x5)
     + length city_3x5_log)%nat.
Proof.
  apply (placements_bounded_by_free_cells city_3x5 city_3x5_final city_3x5_log).
  - solve_wf_grid.
  - solve_wf_catalog.
  - vm_compute. reflexivity.
Defined.

(** X13.  When every tower type costs at least [k], [k] times the number
    of committed placements is at most what [place_towers] took off the
    budget; with a non-negative initial budget that is at most the initial
    budget. *)
Theorem placements_bounded_by_budget (self final : CityGrid)
    (log : list choice) (k : Z) :
  wf_grid self → wf_catalog self →
  (∀ item, item ∈ tower_types self → k ≤ Z.pos (cost item.2)) →
  place_towers self = Some (Ok (final, log)) →
  k * Z.of_nat (length log) ≤ budget self - budget final ∧
  (0 ≤ budget self → k * Z.of_nat (length log) ≤ budget self).
Proof.
  intros Hwf Hcat Hk Hres.
  destruct (place_towers_result _ _ _ Hwf Hcat Hres) as (unc' & Hruns & _ & _).
  pose proof (loop_start_inv self Hwf Hcat) as Hinv.
  destruct (runs_budget _ _ _ Hruns Hinv) as (_ & Hbudget & Hnonneg).
  pose proof (runs_log_types _ _ _ Hruns Hinv) as Htypes.
  cbn [fst snd loop_start] in *.
  assert (k * Z.of_nat (length log) ≤ spent self log) as Hspent.
  { apply spent_lower_bound. intros ch Hch.
    destruct (Htypes ch Hch) as (p & Hitem & Hlook).
    unfold choice_cost. rewrite Hlook. by apply (Hk (ch.2, p)). }
  split; [lia|]. intros H0. specialize (Hnonneg H0). lia.
Qed.

Lemma placements_bounded_by_budget_witness :
  15 * Z.of_nat (length city_3x5_log)
    ≤ budget city_3x5
      - budget city_3x5_final ∧
  (0 ≤ budget city_3x5 →
   15 * Z.of_nat (length city_3x5_log)
     ≤ budget city_3x5).
Proof.
  apply (placements_bounded_by_budget city_3x5 city_3x5_final city_3x5_log).
  - solve_wf_grid.
  - solve_wf_catalog.
  - intros item Hitem. cbn in Hitem.
    repeat (apply elem_of_cons in Hitem as [->|Hitem]; [cbn; lia|]).
    by apply elem_of_nil in Hitem.
  - vm_compute. reflexivity.
Defined.

(** X14.  What [place_towers] does to the grid: the dimensions stay, a cell
    is obstructed at the end exactly when it was at the start, and a cell
    that was Free at the start is Covered at the end exactly when it lies
    within the range of one of the committed towers; otherwise it is still
    Free. *)
Theorem covered_iff_in_range_of_a_tower (self final : CityGrid)
    (log : list choice) :
  wf_grid self → wf_catalog self →
  place_towers self = Some (Ok (final, log)) →
  n final = n self ∧ m final = m self ∧
  ∀ c, in_bounds self c →
    (cell (grid final) c.1 c.2 = -1 ↔ cell (grid self) c.1 c.2 = -1) ∧
    (cell (grid self) c.1 c.2 = 0 →
       (cell (grid final) c.1 c.2 = 0 ∨ cell (grid final) c.1 c.2 = 1) ∧
       (cell (grid final) c.1 c.2 = 1 ↔
          ∃ ch p, ch ∈ log ∧ tower_type_lookup self ch.2 = Ok p ∧
                  chebyshev c (choice_coord ch) ≤ range p)).
Proof.
  intros Hwf Hcat Hres.
  destruct (place_towers_result _ _ _ Hwf Hcat Hres) as (unc' & Hruns & _ & _).
  pose proof (loop_start_inv self Hwf Hcat) as Hinv.
  destruct (runs_grid _ _ _ Hruns Hinv) as (Hn & Hm & Hgrid).
  cbn [fst snd loop_start] in *.
  split; [done|]. split; [done|]. intros c Hc.
  split; [apply (Hgrid c Hc)|]. intros H0.
  pose proof (runs_free_or_covered _ _ _ Hruns Hinv c Hc H0) as Hfc.
  cbn [fst snd loop_start] in Hfc. split.
  - destruct Hfc as [?|[? _]]; [by left|by right].
  - split.
    + intros H1. destruct Hfc as [Hfree|[_ Hex]]; [lia|done].
    + intros (ch & p & Hch & Hlook & Hd).
      pose proof (runs_covered _ _ _ Hruns Hinv ch p c Hch Hlook Hc Hd) as Hne.
      cbn [fst snd] in Hne. destruct Hfc as [Hfree|[H1 _]]; [done|done].
Qed.

Lemma covered_iff_in_range_of_a_tower_witness :
  n city_3x5_final = n city_3x5 ∧
  m city_3x5_final = m city_3x5 ∧
  ∀ c, in_bounds city_3x5 c →
    (cell (grid city_3x5_final) c.1 c.2 = -1
       ↔ cell (grid city_3x5) c.1 c.2 = -1) ∧
    (cell (grid city_3x5) c.1 c.2 = 0 →
       (cell (grid city_3x5_final) c.1 c.2 = 0 ∨
        cell (grid city_3x5_final) c.1 c.2 = 1) ∧
       (cell (grid city_3x5_final) c.1 c.2 = 1 ↔
          ∃ ch p, ch ∈ city_3x5_log ∧
                  tower_type_lookup city_3x5 ch.2 = Ok p ∧
                  chebyshev c (choice_coord ch) ≤ range p)).
Proof.
  apply (covered_iff_in_range_of_a_tower city_3x5 city_3x5_final city_3x5_log).
  - solve_wf_grid.
  - solve_wf_catalog.
  - vm_compute. reflexivity.
Defined.

Lemma scan_type_unaffordable (self : CityGrid) (unc : gset coord) (acc : best)
    (l : list (string * tower_properties)) :
  (∀ item, item ∈ l → budget self < Z.pos (cost item.2)) →
  foldl (scan_type self unc) acc l = acc.
Proof.
  revert acc. induction l as [|item l IH]; intros acc Hl; [done|].
  cbn [foldl]. unfold scan_type at 2.
  rewrite decide_True by (apply Hl; by left).
  apply IH. intros item' Hitem'. apply Hl. by right.
Qed.

(** X15.  On a well-formed object with no Free cell in the grid, or with a
    budget below the cost of every tower type (in particular a budget of 0
    or less), [place_towers] returns at once: no placement, the state as
    it was, no error. *)
Theorem place_towers_nothing_to_do (self : CityGrid) :
  wf_grid self →
  free_cells self = [] ∨ budget self ≤ 0 ∨
  (∀ item, item ∈ tower_types self → budget self < Z.pos (cost item.2)) →
  place_towers self = Some (Ok (self, [])).
Proof.
  intros _ Hcase. unfold place_towers. cbn [place_towers_loop].
  assert (place_towers_body self (initial_uncovered self) = Ok Exit) as ->; [|done].
  unfold place_towers_body. case_decide as Hcond; [|done].
  destruct Hcond as [Hne Hb].
  destruct Hcase as [Hfree|[Hle|Hcost]].
  - exfalso. apply Hne. unfold initial_uncovered. by rewrite Hfree.
  - lia.
  - unfold scan. by rewrite scan_type_unaffordable.
Qed.

Lemma place_towers_nothing_to_do_witness :
  place_towers (make_city [[0; 0]; [0; 0]] 2 2 10) =
  Some (Ok (make_city [[0; 0]; [0; 0]] 2 2 10, [])).
Proof.
  apply (place_towers_nothing_to_do (make_city [[0; 0]; [0; 0]] 2 2 10)).
  { solve_wf_grid. }
  right. right. intros item Hitem. cbn in Hitem.
  repeat (apply elem_of_cons in Hitem as [->|Hitem]; [cbn; lia|]).
  by apply elem_of_nil in Hitem.
Defined.

(** ** More on paths *)

Section more_walks.
Context (E : coord → coord → Prop).

Lemma walk_reverse (s e : coord) (p : list coord) :
  (∀ u v, E u v → E v u) → walk E s p e → walk E e (reverse p) s.
Proof.
  intros Hsym. induction 1 as [u|u v p w HE _ IH].
  - constructor.
  - rewrite reverse_cons. eapply walk_snoc; [exact IH|]. by apply Hsym.
Qed.

Lemma walk_app (s u e : coord) (p q : list coord) :
  walk E s p u → walk E u (u :: q) e → walk E s (p ++ q) e.
Proof.
  induction 1 as [u|s v p u HE _ IH]; intros Hq; [done|].
  cbn. apply walk_cons with v; [done|]. by apply IH.
Qed.

Lemma walk_shorten (s e : coord) (p : list coord) :
  walk E s p e → ¬ NoDup p →
  ∃ p', walk E s p' e ∧ (length p' < length p)%nat.
Proof.
  induction 1 as [u|u v p w HE Hw IH]; intros Hdup.
  { destruct Hdup. apply NoDup_singleton. }
  destruct (decide (u ∈ p)) as [Hin|Hnotin].
  - apply list_elem_of_split in Hin as (l1 & l2 & ->).
    exists (u :: l2). split; [by eapply walk_suffix|].
    cbn. rewrite length_app. cbn. lia.
  - destruct IH as (p' & Hp' & Hlen).
    { intros Hnd. apply Hdup. by constructor. }
    exists (u :: p'). split; [by apply walk_cons with v|]. cbn. lia.
Qed.

Lemma walk_nodes (s e : coord) (p : list coord) (P : coord → Prop) :
  (∀ u v, E u v → P u ∧ P v) → P s → walk E s p e → ∀ u, u ∈ p → P u.
Proof.
  intros HP Hs Hw. revert Hs. induction Hw as [u|u v p w HE Hw IH]; intros Hs a Ha.
  - by apply list_elem_of_singleton in Ha as ->.
  - apply elem_of_cons in Ha as [->|Ha]; [done|].
    apply IH; [|done]. by destruct (HP u v HE).
Qed.
End more_walks.

(** ** [find_shortest_path] on every input *)

Lemma adjacent_sym (towers : list coord) (r : Z) (u v : coord) :
  adjacent towers r u v → adjacent towers r v u.
Proof. intros (Hu & Hv & Hd). unfold adjacent. by rewrite chebyshev_sym. Qed.

Lemma adjacent_mono (towers : list coord) (r r' : Z) (u v : coord) :
  r ≤ r' → adjacent towers r u v → adjacent towers r' u v.
Proof. intros Hr (Hu & Hv & Hd). unfold adjacent. split; [done|]. split; [done|lia]. Qed.

Lemma find_shortest_path_self (self : CityGrid) (P : coord) (r : Z) :
  find_shortest_path self P P r = Some (Ok (Some [P])).
Proof.
  unfold find_shortest_path, breadth_first.
  rewrite Nat.add_comm. cbn [Nat.add breadth_first_loop bfs_step].
  by rewrite decide_True.
Qed.

Lemma find_shortest_path_unknown_start (self : CityGrid) (start end_ : coord) (r : Z) :
  start ∉ towers self → start ≠ end_ →
  find_shortest_path self start end_ r = Some (Raise KeyError).
Proof.
  intros Hstart Hne. unfold find_shortest_path, breadth_first.
  rewrite Nat.add_comm. cbn [Nat.add breadth_first_loop bfs_step].
  rewrite decide_False by done.
  assert (build_graph (towers self) r !! start = None) as ->; [|done].
  apply not_elem_of_dom. destruct (build_graph_spec (towers self) r) as [-> _].
  by rewrite elem_of_list_to_set.
Qed.

Lemma find_shortest_path_known_start (self : CityGrid) (start end_ : coord) (r : Z)
    (e : exn) :
  start ∈ towers self →
  find_shortest_path self start end_ r ≠ Some (Raise e).
Proof.
  intros Hstart. unfold find_shortest_path, breadth_first.
  apply breadth_first_loop_no_error.
  - apply build_graph_closed_graph.
  - intros u p Hin. apply list_elem_of_singleton in Hin as [= -> ->].
    destruct (build_graph_spec (towers self) r) as [-> _].
    by apply elem_of_list_to_set.
Qed.

Lemma find_shortest_path_Some_start (self : CityGrid) (start end_ : coord) (r : Z)
    (path : list coord) :
  find_shortest_path self start end_ r = Some (Ok (Some path)) →
  start = end_ ∨ start ∈ towers self.
Proof.
  intros Hres. destruct (decide (start = end_)) as [|Hne]; [by left|].
  destruct (decide (start ∈ towers self)) as [|Hnot]; [by right|].
  rewrite find_shortest_path_unknown_start in Hres by done. done.
Qed.

Lemma find_shortest_path_found (self : CityGrid) (start end_ : coord) (r : Z)
    (ws : list coord) :
  start = end_ ∨ start ∈ towers self →
  walk (adjacent (towers self) r) start ws end_ →
  ∃ path, find_shortest_path self start end_ r = Some (Ok (Some path)).
Proof.
  intros [->|Hstart] Hws.
  { exists [end_]. apply find_shortest_path_self. }
  destruct (find_shortest_path self start end_ r) as [[[path|]|e]|] eqn:Hres.
  - by exists path.
  - by destruct (find_shortest_path_complete _ _ _ _ Hres ws).
  - by destruct (find_shortest_path_known_start self start end_ r e).
  - by destruct (find_shortest_path_terminates self start end_ r).
Qed.

Lemma adjacent_walk_start_tower (towers : list coord) (r : Z)
    (s e : coord) (ws : list coord) :
  walk (adjacent towers r) s ws e → s = e ∨ s ∈ towers.
Proof.
  destruct 1 as [u|u v p w Hadj _]; [by left|]. right. apply Hadj.
Qed.

(** X16.  [find_shortest_path] always comes to an end, and it raises
    exactly when [start] is not one of the towers and differs from [end_]:
    the exception is then the KeyError of the first adjacency lookup. *)
Theorem find_shortest_path_raises_iff (self : CityGrid) (start end_ : coord) (r : Z) :
  find_shortest_path self start end_ r ≠ None ∧
  ∀ e, find_shortest_path self start end_ r = Some (Raise e) ↔
       e = KeyError ∧ (start ∉ towers self) ∧ start ≠ end_.
Proof.
  split; [apply find_shortest_path_terminates|]. intros e. split.
  - intros Hres.
    destruct (decide (start = end_)) as [->|Hne].
    { by rewrite find_shortest_path_self in Hres. }
    destruct (decide (start ∈ towers self)) as [Hin|Hnot].
    { by destruct (find_shortest_path_known_start self start end_ r e). }
    rewrite find_shortest_path_unknown_start in Hres by done.
    by injection Hres as <-.
  - intros (-> & Hnot & Hne). by apply find_shortest_path_unknown_start.
Qed.

(** X17.  The adjacency dict built by [find_shortest_path]: its keys are
    the towers; the neighbour relation is symmetric; two nodes are
    neighbours only if both are towers within range of each other, and two
    different towers within range are neighbours; a tower is its own
    neighbour only if it occurs twice in the tower list. *)
Theorem adjacency_dict_is_undirected_range_graph (towers : list coord) (r : Z) :
  dom (build_graph towers r) = list_to_set towers ∧
  ∀ u v,
    (edge (build_graph towers r) u v → edge (build_graph towers r) v u) ∧
    (edge (build_graph towers r) u v → adjacent towers r u v) ∧
    (adjacent towers r u v → u ≠ v → edge (build_graph towers r) u v) ∧
    (NoDup towers → ¬ edge (build_graph towers r) u u).
Proof.
  destruct (build_graph_spec towers r) as [Hdom Hedge].
  split; [done|]. intros u v. split; [|split; [|split]].
  - rewrite !Hedge. intros (t1 & t2 & He & Hd & H). exists t1, t2. tauto.
  - apply build_graph_edge_adjacent.
  - apply build_graph_adjacent_edge.
  - intros Hnd H. apply Hedge in H as (t1 & t2 & (l1 & l2 & -> & Hin) & _ & H).
    assert (t1 = t2) as -> by (destruct H as [[<- <-]|[<- <-]]; done).
    apply NoDup_app in Hnd as (_ & _ & Hnd). by apply NoDup_cons in Hnd as [Hnd _].
Qed.

(** X18.  A path returned by [find_shortest_path] visits no node twice;
    when [start] is one of the towers, every node of the path is a tower
    and the path has at most as many nodes as there are towers. *)
Theorem shortest_path_is_simple (self : CityGrid) (start end_ : coord) (r : Z)
    (path : list coord) :
  find_shortest_path self start end_ r = Some (Ok (Some path)) →
  NoDup path ∧
  (start ∈ towers self →
   (∀ u, u ∈ path → u ∈ towers self) ∧
   (length path ≤ length (towers self))%nat).
Proof.
  intros Hres. apply find_shortest_path_sound in Hres as [Hwalk Hmin].
  assert (NoDup path) as Hnd.
  { destruct (decide (NoDup path)) as [|Hdup]; [done|]. exfalso.
    destruct (walk_shorten _ _ _ _ Hwalk Hdup) as (p' & Hp' & Hlen).
    specialize (Hmin p' Hp'). lia. }
  split; [done|]. intros Hstart.
  assert (∀ u, u ∈ path → u ∈ towers self) as Hnodes.
  { apply (walk_nodes (adjacent (towers self) r) start end_); [|done..].
    intros u v (Hu & Hv & _). done. }
  split; [done|]. apply submseteq_length. by apply NoDup_submseteq.
Qed.

Lemma shortest_path_is_simple_witness :
  NoDup path_00_11 ∧
  ((0, 0) ∈ towers city_three_towers →
   (∀ u, u ∈ path_00_11 →
         u ∈ towers city_three_towers) ∧
   (length path_00_11
    ≤ length (towers city_three_towers))%nat).
Proof.
  apply (shortest_path_is_simple
           city_three_towers (0, 0) (1, 1) 2).
  vm_compute. reflexivity.
Defined.

(** X19.  The search is symmetric: when a query returns a path, the query
    with [start] and [end_] exchanged returns a path with the same number
    of nodes. *)
Theorem shortest_path_symmetric (self : CityGrid) (start end_ : coord) (r : Z)
    (path : list coord) :
  find_shortest_path self start end_ r = Some (Ok (Some path)) →
  ∃ path', find_shortest_path self end_ start r = Some (Ok (Some path')) ∧
           length path' = length path.
Proof.
  intros Hres. pose proof Hres as Hres0.
  apply find_shortest_path_sound in Hres as [Hwalk Hmin].
  pose proof (walk_reverse _ _ _ _ (adjacent_sym (towers self) r) Hwalk) as Hrev.
  destruct (find_shortest_path_found self end_ start r (reverse path)) as [path' Hres'].
  { destruct (adjacent_walk_end_tower _ _ _ _ _ Hwalk) as [->|H]; [by left|by right]. }
  { done. }
  exists path'. split; [done|].
  apply find_shortest_path_sound in Hres' as [Hwalk' Hmin'].
  pose proof (walk_reverse _ _ _ _ (adjacent_sym (towers self) r) Hwalk') as Hrev'.
  specialize (Hmin _ Hrev'). specialize (Hmin' _ Hrev).
  rewrite length_reverse in Hmin, Hmin'. lia.
Qed.

Lemma shortest_path_symmetric_witness :
  ∃ path',
    find_shortest_path city_three_towers (1, 1) (0, 0) 2
      = Some (Ok (Some path')) ∧
    length path' = length path_00_11.
Proof.
  apply (shortest_path_symmetric
           city_three_towers (0, 0) (1, 1) 2).
  vm_compute. reflexivity.
Defined.

(** X20.  A larger radius never loses or lengthens a path: when a query
    returns a path for the radius [r], it returns a path with at most as
    many nodes for every radius [r' ≥ r]. *)
Theorem shortest_path_monotone_in_radius (self : CityGrid) (start end_ : coord)
    (r r' : Z) (path : list coord) :
  r ≤ r' →
  find_shortest_path self start end_ r = Some (Ok (Some path)) →
  ∃ path', find_shortest_path self start end_ r' = Some (Ok (Some path')) ∧
           (length path' ≤ length path)%nat.
Proof.
  intros Hr Hres.
  pose proof (find_shortest_path_Some_start _ _ _ _ _ Hres) as Hstart.
  apply find_shortest_path_sound in Hres as [Hwalk _].
  assert (walk (adjacent (towers self) r') start path end_) as Hwalk'.
  { eapply walk_impl; [|exact Hwalk]. intros u v. by apply adjacent_mono. }
  destruct (find_shortest_path_found self start end_ r' path Hstart Hwalk')
    as [path' Hres'].
  exists path'. split; [done|].
  apply find_shortest_path_sound in Hres' as [_ Hmin']. by apply Hmin'.
Qed.

Lemma shortest_path_monotone_in_radius_witness :
  ∃ path',
    find_shortest_path city_three_towers (0, 0) (1, 1) 7
      = Some (Ok (Some path')) ∧
    (length path' ≤ length path_00_11)%nat.
Proof.
  apply (shortest_path_monotone_in_radius
           city_three_towers (0, 0) (1, 1) 2 7).
  - lia.
  - vm_compute. reflexivity.
Defined.

(** X21.  Two different towers within range of each other are joined
    directly: the query returns the two-node path from one to the
    other. *)
Theorem neighbours_are_joined_directly (self : CityGrid) (start end_ : coord) (r : Z) :
  start ∈ towers self → end_ ∈ towers self → start ≠ end_ →
  chebyshev start end_ ≤ r →
  find_shortest_path self start end_ r = Some (Ok (Some [start; end_])).
Proof.
  intros Hs He Hne Hd.
  assert (walk (adjacent (towers self) r) start [start; end_] end_) as Hws.
  { apply walk_cons with end_; [done|constructor]. }
  destruct (find_shortest_path_found self start end_ r _ (or_intror Hs) Hws)
    as [path Hres].
  rewrite Hres. do 3 f_equal.
  apply find_shortest_path_sound in Hres as [Hwalk Hmin].
  specialize (Hmin _ Hws). cbn in Hmin.
  inversion Hwalk as [|? v p ? HE Hw]; subst; [done|].
  inversion Hw as [|? v' p' ? HE' Hw']; subst; [done|].
  apply walk_head in Hw' as (tl & ->). cbn in Hmin. lia.
Qed.

Lemma neighbours_are_joined_directly_witness :
  find_shortest_path city_diagonal_towers (0, 0) (2, 2) 2
    = Some (Ok (Some [(0, 0); (2, 2)])).
Proof.
  apply (neighbours_are_joined_directly
           city_diagonal_towers (0, 0) (2, 2) 2).
  - cbn. set_solver.
  - cbn. set_solver.
  - discriminate.
  - vm_compute. discriminate.
Defined.

(** X22.  Paths compose: when [b] can be reached from [a] and [c] from [b],
    the query from [a] to [c] returns a path, with at most as many edges as
    the two paths together. *)
Theorem shortest_path_triangle (self : CityGrid) (a b c : coord) (r : Z)
    (p q : list coord) :
  find_shortest_path self a b r = Some (Ok (Some p)) →
  find_shortest_path self b c r = Some (Ok (Some q)) →
  ∃ w, find_shortest_path self a c r = Some (Ok (Some w)) ∧
       (length w - 1 ≤ (length p - 1) + (length q - 1))%nat.
Proof.
  intros Hp Hq.
  pose proof (find_shortest_path_Some_start _ _ _ _ _ Hp) as Ha.
  pose proof (find_shortest_path_Some_start _ _ _ _ _ Hq) as Hb.
  apply find_shortest_path_sound in Hp as [Hwp _].
  apply find_shortest_path_sound in Hq as [Hwq _].
  destruct (walk_head _ _ _ _ Hwq) as (tl & ->).
  pose proof (walk_app _ _ _ _ _ _ Hwp Hwq) as Hw.
  destruct (find_shortest_path_found self a c r (p ++ tl)) as [w Hres]; [|done|].
  { destruct Ha as [->|Ha]; [|by right].
    destruct Hb as [->|Hb]; [by left|by right]. }
  exists w. split; [done|].
  apply find_shortest_path_sound in Hres as [_ Hmin].
  specialize (Hmin _ Hw). rewrite length_app in Hmin. cbn. lia.
Qed.

Lemma shortest_path_triangle_witness :
  ∃ w,
    find_shortest_path city_diagonal_towers (0, 0) (2, 2) 1
      = Some (Ok (Some w)) ∧
    (length w - 1 ≤ (length path_00_11 - 1) + (length path_11_22 - 1))%nat.
Proof.
  apply (shortest_path_triangle
           city_diagonal_towers (0, 0) (1, 1) (2, 2) 1).
  - vm_compute. reflexivity.
  - vm_compute. reflexivity.
Defined.

(** ** [__init__] and [_place_obstructions] *)

Ltac solve_draws_in_grid :=
  unfold draws_in_grid;
  repeat (apply Forall_cons; split; [cbn; lia|]); constructor.

Example init_2x2 :
  init 2 2 2 [(0, 1); (0, 1); (1, 0); (1, 1)] 150 =
  Some (Ok {| n := 2; m := 2; grid := [[0; -1]; [-1; 0]]; towers := [];
              budget := 150; tower_types := default_tower_types |}).
Proof. reflexivity. Qed.

Lemma np_zeros_shape (rows cols : Z) : grid_shape (np_zeros rows cols) rows cols.
Proof.
  unfold np_zeros. split; [by rewrite length_replicate|].
  apply Forall_replicate. by rewrite length_replicate.
Qed.

Lemma cell_np_zeros (rows cols i j : Z) : cell (np_zeros rows cols) i j = 0.
Proof.
  unfold cell, np_zeros.
  destruct (replicate _ _ !! Z.to_nat i) as [row|] eqn:Hrow; [|done].
  apply lookup_replicate in Hrow as [-> _]. cbn.
  destruct (replicate _ _ !! Z.to_nat j) as [v|] eqn:Hv; [|done].
  by apply lookup_replicate in Hv as [-> _].
Qed.

Lemma length_filter_agree (P P' : coord → Prop)
    `{!∀ c, Decision (P c)} `{!∀ c, Decision (P' c)} (l : list coord) :
  (∀ c, c ∈ l → (P' c ↔ P c)) →
  length (filter P l) = length (filter P' l).
Proof.
  induction l as [|a l IH]; intros Hiff; [done|].
  rewrite !filter_cons.
  assert (length (filter P l) = length (filter P' l)) as Hl.
  { apply IH. intros c Hc. apply Hiff. by right. }
  assert (P' a ↔ P a) as Ha by (apply Hiff; by left).
  destruct (decide (P a)).
  - rewrite decide_True by tauto. cbn. by rewrite Hl.
  - rewrite decide_False by tauto. done.
Qed.

Lemma length_filter_remove_one (P P' : coord → Prop)
    `{!∀ c, Decision (P c)} `{!∀ c, Decision (P' c)} (l : list coord) (c0 : coord) :
  NoDup l → c0 ∈ l → P c0 → ¬ P' c0 →
  (∀ c, c ∈ l → c ≠ c0 → (P' c ↔ P c)) →
  length (filter P l) = S (length (filter P' l)).
Proof.
  intros Hnd Hin HP HP' Hiff. induction Hnd as [|c l Hc Hnd IH].
  { by apply elem_of_nil in Hin. }
  rewrite !filter_cons. apply elem_of_cons in Hin as [<-|Hin].
  - rewrite decide_True, decide_False by done. cbn. f_equal.
    apply length_filter_agree. intros a Ha. apply Hiff; [by right|].
    intros ->. done.
  - assert (c ≠ c0) by (intros ->; done).
    assert (P' c ↔ P c) as Hcc by (apply Hiff; [by left|done]).
    assert (length (filter P l) = S (length (filter P' l))) as Hl.
    { apply IH; [done|]. intros a Ha. apply Hiff. by right. }
    destruct (decide (P c)).
    + rewrite decide_True by tauto. cbn. by rewrite Hl.
    + rewrite decide_False by tauto. done.
Qed.

Lemma elem_of_grid_cells (rows cols : Z) (c : coord) :
  c ∈ cells (py_range 0 rows) (py_range 0 cols) ↔
  0 ≤ c.1 < rows ∧ 0 ≤ c.2 < cols.
Proof. by rewrite elem_of_cells, !elem_of_py_range. Qed.

(** Obstructing one Free cell: one Free cell less, one obstruction more,
    every other cell as before. *)
Lemma obstruct_one (g : list (list Z)) (rows cols x y : Z) :
  grid_shape g rows cols → 0 ≤ x < rows → 0 ≤ y < cols → cell g x y = 0 →
  grid_shape (setitem g x y (-1)) rows cols ∧
  length (cells_with 0 g rows cols)
    = S (length (cells_with 0 (setitem g x y (-1)) rows cols)) ∧
  length (cells_with (-1) (setitem g x y (-1)) rows cols)
    = S (length (cells_with (-1) g rows cols)) ∧
  cell (setitem g x y (-1)) x y = -1 ∧
  ∀ c, 0 ≤ c.1 → 0 ≤ c.2 → c ≠ (x, y) →
       cell (setitem g x y (-1)) c.1 c.2 = cell g c.1 c.2.
Proof.
  intros Hg Hx Hy H0.
  assert (cell (setitem g x y (-1)) x y = -1) as Hset by (by eapply cell_setitem_eq).
  assert (∀ c, 0 ≤ c.1 → 0 ≤ c.2 → c ≠ (x, y) →
            cell (setitem g x y (-1)) c.1 c.2 = cell g c.1 c.2) as Hother.
  { intros [i j] Hi Hj Hne. cbn in *. apply cell_setitem_ne; (lia || congruence). }
  assert (NoDup (cells (py_range 0 rows) (py_range 0 cols))) as Hnd
    by (apply NoDup_cells; apply NoDup_py_range).
  assert ((x, y) ∈ cells (py_range 0 rows) (py_range 0 cols)) as Hin
    by (by apply elem_of_grid_cells).
  split; [by apply setitem_shape|]. split; [|split; [|done]].
  - unfold cells_with.
    apply (length_filter_remove_one _ _ _ (x, y)); [done|done|done|cbn; lia|].
    intros c Hc Hne. apply elem_of_grid_cells in Hc.
    cbn beta. by rewrite Hother by (lia || done).
  - unfold cells_with.
    apply (length_filter_remove_one _ _ _ (x, y)); [done|done|done|cbn; lia|].
    intros c Hc Hne. apply elem_of_grid_cells in Hc.
    cbn beta. by rewrite Hother by (lia || done).
Qed.

Lemma place_obstructions_loop_spec (draws : list coord) (g g' : list (list Z))
    (rows cols ob : Z) :
  grid_shape g rows cols → draws_in_grid rows cols draws →
  place_obstructions_loop draws g ob = Some g' →
  grid_shape g' rows cols ∧
  Z.of_nat (length (cells_with 0 g rows cols))
    = Z.of_nat (length (cells_with 0 g' rows cols)) + Z.max 0 ob ∧
  Z.of_nat (length (cells_with (-1) g' rows cols))
    = Z.of_nat (length (cells_with (-1) g rows cols)) + Z.max 0 ob ∧
  ∀ c, 0 ≤ c.1 → 0 ≤ c.2 →
    cell g' c.1 c.2 = cell g c.1 c.2 ∨
    (cell g c.1 c.2 = 0 ∧ cell g' c.1 c.2 = -1).
Proof.
  intros Hg Hdraws. revert g ob Hg.
  induction Hdraws as [|[x y] draws [Hx Hy] _ IH]; intros g ob Hg Hloop;
    cbn [place_obstructions_loop] in Hloop; cbn [fst snd] in *.
  - case_decide; [done|]. injection Hloop as <-.
    split; [done|]. split; [lia|]. split; [lia|]. intros; by left.
  - case_decide as Hob.
    2:{ injection Hloop as <-. split; [done|]. split; [lia|]. split; [lia|].
        intros; by left. }
    case_decide as H0.
    + destruct (obstruct_one g rows cols x y Hg Hx Hy H0)
        as (Hg1 & Hfree & Hobs & Hset & Hother).
      destruct (IH _ _ Hg1 Hloop) as (Hg' & Hfree' & Hobs' & Hcells).
      split; [done|]. split; [lia|]. split; [lia|].
      intros c Hc1 Hc2. destruct (decide (c = (x, y))) as [->|Hne].
      * cbn [fst snd]. right. split; [done|].
        destruct (Hcells (x, y)) as [Heq|[Heq _]]; cbn [fst snd] in *; (lia || congruence).
      * rewrite <- (Hother c) by done. by apply Hcells.
    + by apply IH.
Qed.

(** X23.  When the loop of [_place_obstructions] ends, it has turned
    exactly [obstructed_blocks] Free cells into obstructions (none when the
    counter is not positive): the array keeps its shape, the number of Free
    cells went down and the number of obstructed cells went up by that
    count, and every cell either kept its value or went from Free to
    obstructed. *)
Theorem place_obstructions_places_exactly (draws : list coord)
    (g g' : list (list Z)) (rows cols obstructed_blocks : Z) :
  grid_shape g rows cols → draws_in_grid rows cols draws →
  place_obstructions_loop draws g obstructed_blocks = Some g' →
  grid_shape g' rows cols ∧
  Z.of_nat (length (cells_with 0 g' rows cols))
    = Z.of_nat (length (cells_with 0 g rows cols)) - Z.max 0 obstructed_blocks ∧
  Z.of_nat (length (cells_with (-1) g' rows cols))
    = Z.of_nat (length (cells_with (-1) g rows cols)) + Z.max 0 obstructed_blocks ∧
  ∀ c, 0 ≤ c.1 < rows → 0 ≤ c.2 < cols →
    cell g' c.1 c.2 = cell g c.1 c.2 ∨
    (cell g c.1 c.2 = 0 ∧ cell g' c.1 c.2 = -1).
Proof.
  intros Hg Hdraws Hloop.
  destruct (place_obstructions_loop_spec _ _ _ _ _ _ Hg Hdraws Hloop)
    as (Hg' & Hfree & Hobs & Hcells).
  split; [done|]. split; [lia|]. split; [done|].
  intros c Hc1 Hc2. apply Hcells; lia.
Qed.

Lemma place_obstructions_places_exactly_witness :
  grid_shape [[0; -1]; [-1; 0]] 2 2 ∧
  Z.of_nat (length (cells_with 0 [[0; -1]; [-1; 0]] 2 2))
    = Z.of_nat (length (cells_with 0 (np_zeros 2 2) 2 2)) - Z.max 0 2 ∧
  Z.of_nat (length (cells_with (-1) [[0; -1]; [-1; 0]] 2 2))
    = Z.of_nat (length (cells_with (-1) (np_zeros 2 2) 2 2)) + Z.max 0 2 ∧
  ∀ c, 0 ≤ c.1 < 2 → 0 ≤ c.2 < 2 →
    cell [[0; -1]; [-1; 0]] c.1 c.2 = cell (np_zeros 2 2) c.1 c.2 ∨
    (cell (np_zeros 2 2) c.1 c.2 = 0 ∧ cell [[0; -1]; [-1; 0]] c.1 c.2 = -1).
Proof.
  apply (place_obstructions_places_exactly [(0, 1); (0, 1); (1, 0); (1, 1)]
           (np_zeros 2 2) [[0; -1]; [-1; 0]] 2 2 2).
  - apply np_zeros_shape.
  - solve_draws_in_grid.
  - reflexivity.
Defined.

Lemma place_obstructions_loop_stuck (draws : list coord) (g : list (list Z))
    (rows cols ob : Z) :
  grid_shape g rows cols → draws_in_grid rows cols draws →
  Z.of_nat (length (cells_with 0 g rows cols)) < ob →
  place_obstructions_loop draws g ob = None.
Proof.
  intros Hg Hdraws. revert g ob Hg.
  induction Hdraws as [|[x y] draws [Hx Hy] _ IH]; intros g ob Hg Hmore;
    cbn [place_obstructions_loop]; cbn [fst snd] in *.
  - rewrite decide_True by lia. done.
  - rewrite decide_True by lia. case_decide as H0.
    + destruct (obstruct_one g rows cols x y Hg Hx Hy H0) as (Hg1 & Hfree & _).
      apply IH; [done|]. lia.
    + by apply IH.
Qed.

(** X24.  When the counter asks for more obstructions than the array has
    Free cells, the loop of [_place_obstructions] never ends: whatever the
    random draws are, and however many of them, it is still running when
    they are used up. *)
Theorem place_obstructions_never_ends (draws : list coord) (g : list (list Z))
    (rows cols obstructed_blocks : Z) :
  grid_shape g rows cols → draws_in_grid rows cols draws →
  Z.of_nat (length (cells_with 0 g rows cols)) < obstructed_blocks →
  place_obstructions_loop draws g obstructed_blocks = None.
Proof. apply place_obstructions_loop_stuck. Qed.

Lemma place_obstructions_never_ends_witness :
  place_obstructions_loop [(0, 1); (0, 0); (1, 0); (1, 1); (0, 0)]
    (np_zeros 2 2) 5 = None.
Proof.
  apply (place_obstructions_never_ends _ _ 2 2).
  - apply np_zeros_shape.
  - solve_draws_in_grid.
  - vm_compute. reflexivity.
Defined.

Lemma length_filter_all (P : coord → Prop) `{!∀ c, Decision (P c)} (l : list coord) :
  (∀ c, c ∈ l → P c) → length (filter P l) = length l.
Proof.
  induction l as [|a l IH]; intros Hall; [done|].
  rewrite filter_cons, decide_True by (apply Hall; by left).
  cbn. f_equal. apply IH. intros c Hc. apply Hall. by right.
Qed.

Lemma length_filter_none (P : coord → Prop) `{!∀ c, Decision (P c)} (l : list coord) :
  (∀ c, c ∈ l → ¬ P c) → length (filter P l) = 0%nat.
Proof.
  induction l as [|a l IH]; intros Hnone; [done|].
  rewrite filter_cons, decide_False by (apply Hnone; by left).
  apply IH. intros c Hc. apply Hnone. by right.
Qed.

Lemma cells_with_zero_np_zeros (rows cols : Z) :
  0 ≤ rows → 0 ≤ cols →
  Z.of_nat (length (cells_with 0 (np_zeros rows cols) rows cols)) = rows * cols.
Proof.
  intros Hr Hc. unfold cells_with. rewrite length_filter_all.
  - rewrite length_cells, !length_py_range, Nat2Z.inj_mul. lia.
  - intros c _. apply cell_np_zeros.
Qed.

Lemma cells_with_obstruction_np_zeros (rows cols : Z) :
  length (cells_with (-1) (np_zeros rows cols) rows cols) = 0%nat.
Proof.
  unfold cells_with. apply length_filter_none.
  intros c _. by rewrite cell_np_zeros.
Qed.

Lemma free_cells_cells_with (self : CityGrid) :
  free_cells self = cells_with 0 (grid self) (n self) (m self).
Proof. apply free_cells_filter. Qed.

Lemma init_inv (rows cols ob : Z) (draws : list coord) (b : Z) (self : CityGrid) :
  draws_in_grid rows cols draws →
  init rows cols ob draws b = Some (Ok self) →
  0 ≤ rows ∧ 0 ≤ cols ∧ n self = rows ∧ m self = cols ∧
  towers self = [] ∧ budget self = b ∧ tower_types self = default_tower_types ∧
  place_obstructions_loop draws (np_zeros rows cols) ob = Some (grid self).
Proof.
  intros Hdraws Hinit. unfold init in Hinit. case_decide as Hneg; [done|].
  destruct (place_obstructions_loop _ _ _) as [g|] eqn:Hloop; [|done].
  injection Hinit as <-. cbn. repeat (split; [lia || done|]). done.
Qed.

Lemma init_result (rows cols obstructed_blocks : Z) (draws : list coord)
    (initial_budget : Z) (self : CityGrid) :
  draws_in_grid rows cols draws →
  init rows cols obstructed_blocks draws initial_budget = Some (Ok self) →
  wf_grid self ∧ wf_catalog self ∧
  n self = rows ∧ m self = cols ∧ towers self = [] ∧
  budget self = initial_budget ∧
  (∀ c, in_bounds self c →
     cell (grid self) c.1 c.2 = 0 ∨ cell (grid self) c.1 c.2 = -1) ∧
  Z.of_nat (length (cells_with (-1) (grid self) rows cols))
    = Z.max 0 obstructed_blocks ∧
  Z.of_nat (length (free_cells self)) = rows * cols - Z.max 0 obstructed_blocks.
Proof.
  intros Hdraws Hinit.
  destruct (init_inv _ _ _ _ _ _ Hdraws Hinit)
    as (Hr & Hc & Hn & Hm & Ht & Hb & Hcat & Hloop).
  destruct (place_obstructions_loop_spec _ _ _ _ _ _
              (np_zeros_shape rows cols) Hdraws Hloop)
    as ([Hlen Hrows] & Hfree & Hobs & Hcells).
  rewrite cells_with_zero_np_zeros in Hfree by done.
  rewrite cells_with_obstruction_np_zeros in Hobs.
  split. { unfold wf_grid. rewrite Hn, Hm. done. }
  split; [by apply wf_default_catalog|].
  repeat (split; [done|]). split; [|split].
  - intros c [Hc1 Hc2]. destruct (Hcells c) as [Heq|[_ Heq]]; [lia|lia| |by right].
    left. by rewrite Heq, cell_np_zeros.
  - lia.
  - rewrite free_cells_cells_with, Hn, Hm. lia.
Qed.

(** X25.  Every object the constructor returns is well-formed: the array
    has the shape [(n, m)], the catalog has distinct names, no tower is
    recorded, the budget is the one given, every cell is Free or
    obstructed, and the obstructed cells number exactly
    [obstructed_blocks] (0 when the counter is not positive), the Free
    cells being all the others. *)
Theorem init_well_formed (rows cols obstructed_blocks : Z) (draws : list coord)
    (initial_budget : Z) (self : CityGrid) :
  draws_in_grid rows cols draws →
  init rows cols obstructed_blocks draws initial_budget = Some (Ok self) →
  wf_grid self ∧ wf_catalog self ∧
  n self = rows ∧ m self = cols ∧ towers self = [] ∧
  budget self = initial_budget ∧
  (∀ c, in_bounds self c →
     cell (grid self) c.1 c.2 = 0 ∨ cell (grid self) c.1 c.2 = -1) ∧
  Z.of_nat (length (cells_with (-1) (grid self) rows cols))
    = Z.max 0 obstructed_blocks ∧
  Z.of_nat (length (free_cells self)) = rows * cols - Z.max 0 obstructed_blocks.
Proof. apply init_result. Qed.

Lemma init_well_formed_witness :
  wf_grid (make_city [[0; -1]; [-1; 0]] 2 2 150) ∧
  wf_catalog (make_city [[0; -1]; [-1; 0]] 2 2 150) ∧
  n (make_city [[0; -1]; [-1; 0]] 2 2 150) = 2 ∧
  m (make_city [[0; -1]; [-1; 0]] 2 2 150) = 2 ∧
  towers (make_city [[0; -1]; [-1; 0]] 2 2 150) = [] ∧
  budget (make_city [[0; -1]; [-1; 0]] 2 2 150) = 150 ∧
  (∀ c, in_bounds (make_city [[0; -1]; [-1; 0]] 2 2 150) c →
     cell (grid (make_city [[0; -1]; [-1; 0]] 2 2 150)) c.1 c.2 = 0 ∨
     cell (grid (make_city [[0; -1]; [-1; 0]] 2 2 150)) c.1 c.2 = -1) ∧
  Z.of_nat (length (cells_with (-1) (grid (make_city [[0; -1]; [-1; 0]] 2 2 150)) 2 2))
    = Z.max 0 2 ∧
  Z.of_nat (length (free_cells (make_city [[0; -1]; [-1; 0]] 2 2 150)))
    = 2 * 2 - Z.max 0 2.
Proof.
  apply (init_well_formed 2 2 2 [(0, 1); (0, 1); (1, 0); (1, 1)] 150).
  - solve_draws_in_grid.
  - reflexivity.
Defined.

(** X26.  The constructor never returns when it is asked for more
    obstructions than the grid has cells, whatever the random draws
    are. *)
Theorem init_too_many_obstructions (rows cols obstructed_blocks : Z)
    (draws : list coord) (initial_budget : Z) :
  draws_in_grid rows cols draws →
  0 ≤ rows → 0 ≤ cols → rows * cols < obstructed_blocks →
  init rows cols obstructed_blocks draws initial_budget = None.
Proof.
  intros Hdraws Hr Hc Hmore. unfold init. rewrite decide_False by lia.
  rewrite (place_obstructions_loop_stuck draws _ rows cols); [done| |done|].
  - apply np_zeros_shape.
  - by rewrite cells_with_zero_np_zeros.
Qed.

Lemma init_too_many_obstructions_witness :
  init 2 2 5 [(0, 1); (0, 0); (1, 0); (1, 1); (0, 0)] 150 = None.
Proof.
  apply (init_too_many_obstructions 2 2 5).
  - solve_draws_in_grid.
  - lia.
  - lia.
  - lia.
Defined.

(** X27.  Constructor and optimizer together: on every object the
    constructor returns, [place_towers] finishes without raising; the
    towers it records are pairwise distinct; the grid keeps exactly the
    obstructions the constructor placed, and every cell ends Free, Covered
    or obstructed; with a non-negative budget the remaining budget lies
    between 0 and the initial budget. *)
Theorem constructed_city_is_optimised (rows cols obstructed_blocks : Z)
    (draws : list coord) (initial_budget : Z) (self : CityGrid) :
  draws_in_grid rows cols draws →
  init rows cols obstructed_blocks draws initial_budget = Some (Ok self) →
  ∃ final log,
    place_towers self = Some (Ok (final, log)) ∧
    towers final = choice_coord <$> log ∧ NoDup (towers final) ∧
    (∀ c, in_bounds self c →
       (cell (grid final) c.1 c.2 = -1 ↔ cell (grid self) c.1 c.2 = -1) ∧
       (cell (grid final) c.1 c.2 = -1 ∨ cell (grid final) c.1 c.2 = 0 ∨
        cell (grid final) c.1 c.2 = 1)) ∧
    Z.of_nat (length (cells_with (-1) (grid final) rows cols))
      = Z.max 0 obstructed_blocks ∧
    (0 ≤ initial_budget → 0 ≤ budget final ≤ initial_budget).
Proof.
  intros Hdraws Hinit.
  destruct (init_result _ _ _ _ _ _ Hdraws Hinit)
    as (Hwf & Hcat & Hn & Hm & Ht & Hb & Hcells & Hobs & _).
  destruct (place_towers_runs self Hwf Hcat) as (final & unc' & log & Hres & Hruns & _).
  pose proof (loop_start_inv self Hwf Hcat) as Hinv.
  pose proof (runs_towers _ _ _ Hruns Hinv) as Htowers.
  destruct (runs_choices _ _ _ Hruns Hinv) as (Hnd & _).
  destruct (runs_grid _ _ _ Hruns Hinv) as (_ & _ & Hgrid).
  destruct (runs_budget _ _ _ Hruns Hinv) as (_ & Hbudget & Hnonneg).
  pose proof (spent_nonneg self log) as Hspent.
  cbn [fst snd loop_start] in *. rewrite Ht in Htowers. cbn in Htowers.
  exists final, log. split; [done|]. split; [done|].
  split; [by rewrite Htowers|]. split; [|split].
  - intros c Hc. destruct (Hgrid c Hc) as (H1 & H2 & H3).
    split; [done|].
    destruct (Hcells c Hc) as [H0|Hm1]; [|left; tauto].
    destruct (runs_free_or_covered _ _ _ Hruns Hinv c Hc H0) as [?|[? _]];
      cbn [fst snd] in *; tauto.
  - rewrite <- Hobs. f_equal. unfold cells_with. apply length_filter_agree.
    intros c Hc. apply elem_of_grid_cells in Hc.
    symmetry. apply (Hgrid c). unfold in_bounds. by rewrite Hn, Hm.
  - intros H0. rewrite Hb in *. specialize (Hnonneg H0). lia.
Qed.

Lemma constructed_city_is_optimised_witness :
  ∃ final log,
    place_towers (make_city [[0; -1]; [-1; 0]] 2 2 150) = Some (Ok (final, log)) ∧
    towers final = choice_coord <$> log ∧ NoDup (towers final) ∧
    (∀ c, in_bounds (make_city [[0; -1]; [-1; 0]] 2 2 150) c →
       (cell (grid final) c.1 c.2 = -1 ↔
          cell (grid (make_city [[0; -1]; [-1; 0]] 2 2 150)) c.1 c.2 = -1) ∧
       (cell (grid final) c.1 c.2 = -1 ∨ cell (grid final) c.1 c.2 = 0 ∨
        cell (grid final) c.1 c.2 = 1)) ∧
    Z.of_nat (length (cells_with (-1) (grid final) 2 2)) = Z.max 0 2 ∧
    (0 ≤ 150 → 0 ≤ budget final ≤ 150).
Proof.
  apply (constructed_city_is_optimised 2 2 2 [(0, 1); (0, 1); (1, 0); (1, 1)] 150).
  - solve_draws_in_grid.
  - reflexivity.
Defined.

(** ** [breadth_first] on an arbitrary dict *)

Lemma breadth_first_loop_raises_key_error (fuel : nat)
    (graph : gmap coord (list coord)) (end_ : coord) (visited : gset coord)
    (queue : list (coord * list coord)) (e : exn) :
  breadth_first_loop fuel graph end_ visited queue = Some (Raise e) →
  e = KeyError.
Proof.
  revert visited queue. induction fuel as [|fuel IH]; intros visited queue; [done|].
  cbn [breadth_first_loop]. unfold bfs_step.
  destruct queue as [|[c p] queue]; [done|].
  destruct (decide (c = end_)) as [->|Hne]; [done|].
  destruct (graph !! c) as [nbrs|] eqn:Hnbrs.
  - apply IH.
  - by intros [= <-].
Qed.

(** X28.  [breadth_first] on any adjacency dict, directed or not, and for
    any number of iterations it is given: a path it returns leads from
    [start] to [end_] along entries of the dict and no such path has fewer
    nodes; it returns None only when the dict has no path from [start] to
    [end_]; and the only exception it raises is the KeyError of a node
    without an entry. *)
Theorem breadth_first_on_any_dict (fuel : nat) (graph : gmap coord (list coord))
    (start end_ : coord) :
  (∀ path, breadth_first fuel graph start end_ = Some (Ok (Some path)) →
     walk (edge graph) start path end_ ∧
     ∀ ws, walk (edge graph) start ws end_ → (length path ≤ length ws)%nat) ∧
  (breadth_first fuel graph start end_ = Some (Ok None) →
     ∀ ws, ¬ walk (edge graph) start ws end_) ∧
  (∀ e, breadth_first fuel graph start end_ = Some (Raise e) → e = KeyError).
Proof.
  unfold breadth_first. split; [|split].
  - intros path. apply breadth_first_loop_sound, bfs_inv_init.
  - apply breadth_first_loop_complete, bfs_inv_init.
  - intros e. apply breadth_first_loop_raises_key_error.
Qed.
